(** * deepstream.io-cache-redis: the coalescing cache connector

  A shallow embedding of [src/cache-connector.js].  The connector keeps
  three insertion-ordered JavaScript [Map]s of pending operations
  ([sets], [gets], [deletes]) and a boolean [timeoutSet]; [set], [get] and
  [delete] register an operation and arm a [process.nextTick] trigger,
  and [flush] turns everything pending into one pipeline that is handed
  to the redis client with [exec].

  What the file does not own is kept abstract: the payload type, the
  error values, [JSON.stringify] (which may throw), [JSON.parse] (which
  may throw) and the configured [options.ttl]. *)

From Stdlib Require Import List String ZArith Bool Arith Lia.
Import ListNotations.
Local Open Scope string_scope.
Local Open Scope list_scope.

Set Implicit Arguments.

(** ** JavaScript [Map] with string keys

  A [Map] iterates its entries in insertion order; [set] on a key that is
  present replaces the value in place, [delete] removes the entry. *)
Module JsMap.

Section Ops.
Variable V : Type.

Definition t := list (string * V).

Definition empty : t := [].

Fixpoint has (k : string) (m : t) : bool :=
  match m with
  | [] => false
  | (k', _) :: m' => if String.eqb k k' then true else has k m'
  end.

Fixpoint get (k : string) (m : t) : option V :=
  match m with
  | [] => None
  | (k', v) :: m' => if String.eqb k k' then Some v else get k m'
  end.

Fixpoint set (k : string) (v : V) (m : t) : t :=
  match m with
  | [] => [(k, v)]
  | (k', v') :: m' =>
      if String.eqb k k' then (k, v) :: m' else (k', v') :: set k v m'
  end.

Fixpoint delete (k : string) (m : t) : t :=
  match m with
  | [] => []
  | (k', v') :: m' =>
      if String.eqb k k' then delete k m' else (k', v') :: delete k m'
  end.

Definition entries (m : t) : list (string * V) := m.

Definition clear (_ : t) : t := [].

Definition keys (m : t) : list string := map fst m.
End Ops.

Arguments empty {V}.
End JsMap.

(** ** What travels to and from the store *)

(** A callback is a function object of the caller; the connector only
  stores it and passes it on, so its identity is all that matters. *)
Abbreviation callback := nat (only parsing).

(** One command appended to a pipeline.  [GET] carries the caller's
  callback; the closure the source wraps around it is [on_get_reply]
  below. *)
Inductive command : Type :=
| SET (key : string) (text : string) (cb : callback)
| SETEX (key : string) (seconds : Z) (text : string) (cb : callback)
| DEL (key : string) (cb : callback)
| GET (key : string) (cb : callback).

Definition pipeline := list command.

(** The [result] a completed command hands to its callback. *)
Inductive reply : Type :=
| RNull
| RUndefined
| RText (s : string).

Section Connector.
(** Payloads handed to [set], and JavaScript error values. *)
Variables value error : Type.
(** [JSON.stringify]: [inl e] when it throws [e] (a cyclic object, a
    BigInt). *)
Variable JSON_stringify : value -> error + string.
(** [JSON.parse]: [inl e] when it throws [e]. *)
Variable JSON_parse : string -> error + value.
(** [this.options.ttl]; [None] when the option is not configured. *)
Variable ttl : option Z.

(** Truthiness of [this.options.ttl]. *)
Definition ttl_truthy : bool :=
  match ttl with
  | Some n => negb (Z.eqb n 0)
  | None => false
  end.

Definition ttl_seconds : Z :=
  match ttl with
  | Some n => n
  | None => 0%Z
  end.

(** *** Connector state

    [nextTicks] counts the [this.flush] callbacks waiting in the
    [process.nextTick] queue; [executed] lists, oldest first, the
    pipelines on which [exec] was called. *)
Record connector : Type := Connector {
  sets : JsMap.t (value * callback);
  gets : JsMap.t callback;
  deletes : JsMap.t callback;
  timeoutSet : bool;
  nextTicks : nat;
  executed : list pipeline
}.

(** The connector as the constructor leaves it. *)
Definition fresh : connector :=
  {| sets := JsMap.empty; gets := JsMap.empty; deletes := JsMap.empty;
     timeoutSet := false; nextTicks := 0; executed := [] |}.

Definition with_sets (f : JsMap.t (value * callback) -> JsMap.t (value * callback))
  (c : connector) : connector :=
  {| sets := f (sets c); gets := gets c; deletes := deletes c;
     timeoutSet := timeoutSet c; nextTicks := nextTicks c;
     executed := executed c |}.

Definition with_gets (f : JsMap.t callback -> JsMap.t callback)
  (c : connector) : connector :=
  {| sets := sets c; gets := f (gets c); deletes := deletes c;
     timeoutSet := timeoutSet c; nextTicks := nextTicks c;
     executed := executed c |}.

Definition with_deletes (f : JsMap.t callback -> JsMap.t callback)
  (c : connector) : connector :=
  {| sets := sets c; gets := gets c; deletes := f (deletes c);
     timeoutSet := timeoutSet c; nextTicks := nextTicks c;
     executed := executed c |}.

Definition with_timeoutSet (b : bool) (c : connector) : connector :=
  {| sets := sets c; gets := gets c; deletes := deletes c;
     timeoutSet := b; nextTicks := nextTicks c; executed := executed c |}.

Definition with_nextTicks (f : nat -> nat) (c : connector) : connector :=
  {| sets := sets c; gets := gets c; deletes := deletes c;
     timeoutSet := timeoutSet c; nextTicks := f (nextTicks c);
     executed := executed c |}.

(** [pipeline.exec()]. *)
Definition with_exec (p : pipeline) (c : connector) : connector :=
  {| sets := sets c; gets := gets c; deletes := deletes c;
     timeoutSet := timeoutSet c; nextTicks := nextTicks c;
     executed := executed c ++ [p] |}.

(** *** Methods run in a state monad with exceptions

    A method either returns or throws; what it did to the connector
    before throwing stays done. *)
Inductive outcome (A : Type) : Type :=
| Returned (a : A)
| Threw (e : error).

Arguments Threw {A} e.

Definition js (A : Type) : Type := connector -> outcome A * connector.

Definition ret {A} (a : A) : js A := fun c => (Returned a, c).

Definition bind {A B} (m : js A) (k : A -> js B) : js B :=
  fun c =>
    match m c with
    | (Returned a, c') => k a c'
    | (Threw e, c') => (Threw e, c')
    end.

Definition throw {A} (e : error) : js A := fun c => (Threw e, c).

Definition reads {A} (f : connector -> A) : js A := fun c => (Returned (f c), c).

Definition modify (f : connector -> connector) : js unit :=
  fun c => (Returned tt, f c).

Definition when (b : bool) (m : js unit) : js unit :=
  if b then m else ret tt.

Definition lift {A} (r : error + A) : js A :=
  match r with
  | inl e => throw e
  | inr a => ret a
  end.

Notation "x <- m ;; k" := (bind m (fun x => k))
  (at level 61, m at next level, right associativity).
Notation "m ;; k" := (bind m (fun _ => k))
  (at level 61, right associativity).

(** *** flush, lines 115-164 *)

(** The body of the loop over [this.sets.entries()]. *)
Definition append_set (p : pipeline) (entry : string * (value * callback))
  : error + pipeline :=
  let key := fst entry in
  match JSON_stringify (fst (snd entry)) with
  | inl e => inl e
  | inr text =>
      let cb := snd (snd entry) in
      if ttl_truthy
      then inr (p ++ [SETEX key ttl_seconds text cb])
      else inr (p ++ [SET key text cb])
  end.

Fixpoint append_sets (p : pipeline) (entries : list (string * (value * callback)))
  : error + pipeline :=
  match entries with
  | [] => inr p
  | entry :: rest =>
      match append_set p entry with
      | inl e => inl e
      | inr p' => append_sets p' rest
      end
  end.

Definition append_deletes (p : pipeline) (entries : list (string * callback))
  : pipeline :=
  fold_left (fun q entry => q ++ [DEL (fst entry) (snd entry)]) entries p.

Definition append_gets (p : pipeline) (entries : list (string * callback))
  : pipeline :=
  fold_left (fun q entry => q ++ [GET (fst entry) (snd entry)]) entries p.

Definition flush : js unit :=
  modify (with_timeoutSet false) ;;
  pending_sets <- reads (fun c => JsMap.entries (sets c)) ;;
  p1 <- lift (append_sets [] pending_sets) ;;
  modify (with_sets (@JsMap.clear _)) ;;
  pending_deletes <- reads (fun c => JsMap.entries (deletes c)) ;;
  modify (with_deletes (@JsMap.clear _)) ;;
  pending_gets <- reads (fun c => JsMap.entries (gets c)) ;;
  modify (with_gets (@JsMap.clear _)) ;;
  modify (with_exec (append_gets (append_deletes p1 pending_deletes) pending_gets)).

(** *** scheduleFlush, lines 108-113 *)
Definition scheduleFlush : js unit :=
  armed <- reads timeoutSet ;;
  when (negb armed)
    (modify (with_timeoutSet true) ;;
     modify (with_nextTicks S)).

(** *** delete, set and get, lines 58-106 *)
Definition delete (key : string) (cb : callback) : js unit :=
  modify (with_sets (JsMap.delete key)) ;;
  pending <- reads (fun c => JsMap.has key (deletes c)) ;;
  when pending flush ;;
  modify (with_deletes (JsMap.set key cb)) ;;
  scheduleFlush.

Definition set (key : string) (v : value) (cb : callback) : js unit :=
  pending <- reads (fun c => JsMap.has key (sets c)) ;;
  when pending flush ;;
  modify (with_sets (JsMap.set key (v, cb))) ;;
  scheduleFlush.

Definition get (key : string) (cb : callback) : js unit :=
  pending <- reads (fun c => JsMap.has key (gets c)) ;;
  when pending flush ;;
  modify (with_gets (JsMap.set key cb)) ;;
  scheduleFlush.

(** *** The host: synchronous calls, then the tick queue *)
Inductive call : Type :=
| CallSet (key : string) (v : value) (cb : callback)
| CallGet (key : string) (cb : callback)
| CallDelete (key : string) (cb : callback).

Definition call_key (c : call) : string :=
  match c with
  | CallSet k _ _ => k
  | CallGet k _ => k
  | CallDelete k _ => k
  end.

Definition call_callback (c : call) : callback :=
  match c with
  | CallSet _ _ cb => cb
  | CallGet _ cb => cb
  | CallDelete _ cb => cb
  end.

Definition perform (c : call) : js unit :=
  match c with
  | CallSet k v cb => set k v cb
  | CallGet k cb => get k cb
  | CallDelete k cb => delete k cb
  end.

(** Calls made one after the other within one synchronous turn; a throw
    ends the turn. *)
Fixpoint perform_all (cs : list call) : js unit :=
  match cs with
  | [] => ret tt
  | c :: rest => perform c ;; perform_all rest
  end.

(** The next queued [this.flush] runs. *)
Definition run_tick : js unit :=
  fun c =>
    match nextTicks c with
    | O => (Returned tt, c)
    | S n => flush (with_nextTicks (fun _ => n) c)
    end.

Fixpoint run_ticks (n : nat) : js unit :=
  match n with
  | O => ret tt
  | S n' => run_tick ;; run_ticks n'
  end.

(** The turn ends: every trigger queued so far fires ([flush] queues
    none). *)
Definition end_of_turn : js unit :=
  fun c => run_ticks (nextTicks c) c.

(** *** Completion of commands *)
Inductive arg : Type :=
| ArgNull
| ArgError (e : error)
| ArgValue (v : value)
| ArgReply (r : reply).

(** One invocation of a caller's callback with its argument list. *)
Inductive invocation : Type :=
| Invoke (cb : callback) (args : list arg).

Definition invoked (i : invocation) : callback :=
  match i with Invoke cb _ => cb end.

Definition arg_of_error (err : option error) : arg :=
  match err with
  | None => ArgNull
  | Some e => ArgError e
  end.

(** [JSON.parse] converts its argument to a string first. *)
Definition reply_text (r : reply) : string :=
  match r with
  | RNull => "null"
  | RUndefined => "undefined"
  | RText s => s
  end.

(** The closure of lines 143-159 around [cb]. *)
Definition on_get_reply (cb : callback) (err : option error) (result : reply)
  : list invocation :=
  match result with
  | RNull => [Invoke cb [arg_of_error err; ArgNull]]
  | _ =>
      match JSON_parse (reply_text result) with
      | inl e => [Invoke cb [ArgError e]]
      | inr parsedResult => [Invoke cb [ArgNull; ArgValue parsedResult]]
      end
  end.

(** The store reports one command's outcome as [(err, result)]; for
    writes and deletes the client calls the caller's callback itself. *)
Definition complete (c : command) (r : option error * reply) : list invocation :=
  match c with
  | SET _ _ cb => [Invoke cb [arg_of_error (fst r); ArgReply (snd r)]]
  | SETEX _ _ _ cb => [Invoke cb [arg_of_error (fst r); ArgReply (snd r)]]
  | DEL _ cb => [Invoke cb [arg_of_error (fst r); ArgReply (snd r)]]
  | GET _ cb => on_get_reply cb (fst r) (snd r)
  end.

(** The store answers every command of every executed pipeline, in
    submission order; [answer] is what it reports for each. *)
Definition deliver (answer : command -> option error * reply) (p : pipeline)
  : list invocation :=
  flat_map (fun c => complete c (answer c)) p.

Definition deliver_all (answer : command -> option error * reply)
  (ps : list pipeline) : list invocation :=
  flat_map (deliver answer) ps.

Definition times_invoked (cb : callback) (log : list invocation) : nat :=
  count_occ Nat.eq_dec (map invoked log) cb.

(** *** Vocabulary of the statements *)

(** Whether [JSON.stringify] returns on [v], and the text it returns. *)
Definition serializable (v : value) : bool :=
  match JSON_stringify v with
  | inr _ => true
  | inl _ => false
  end.

Definition stringified (v : value) : string :=
  match JSON_stringify v with
  | inr text => text
  | inl _ => ""
  end.

Definition all_serializable (m : JsMap.t (value * callback)) : bool :=
  forallb (fun entry => serializable (fst (snd entry))) m.

(** The write command the source appends for a pending set: [setex] when
    [options.ttl] is truthy, [set] otherwise. *)
Definition write_command (key text : string) (cb : callback) : command :=
  if ttl_truthy then SETEX key ttl_seconds text cb else SET key text cb.

Definition write_of (entry : string * (value * callback)) : command :=
  write_command (fst entry) (stringified (fst (snd entry))) (snd (snd entry)).

Definition delete_of (entry : string * callback) : command :=
  DEL (fst entry) (snd entry).

Definition read_of (entry : string * callback) : command :=
  GET (fst entry) (snd entry).

(** Everything pending in [c], as one pipeline. *)
Definition batch_of (c : connector) : pipeline :=
  map write_of (sets c) ++ map delete_of (deletes c) ++ map read_of (gets c).

(** [c] once a flush has gone through. *)
Definition flushed (c : connector) : connector :=
  {| sets := []; gets := []; deletes := []; timeoutSet := false;
     nextTicks := nextTicks c; executed := executed c ++ [batch_of c] |}.

Inductive kind : Type := Write | Delete | Read.

Definition kind_of (cmd : command) : kind :=
  match cmd with
  | SET _ _ _ => Write
  | SETEX _ _ _ _ => Write
  | DEL _ _ => Delete
  | GET _ _ => Read
  end.

Definition command_key (cmd : command) : string :=
  match cmd with
  | SET k _ _ => k
  | SETEX k _ _ _ => k
  | DEL k _ => k
  | GET k _ => k
  end.

Definition command_callback (cmd : command) : callback :=
  match cmd with
  | SET _ _ cb => cb
  | SETEX _ _ _ cb => cb
  | DEL _ cb => cb
  | GET _ cb => cb
  end.

Definition call_kind (op : call) : kind :=
  match op with
  | CallSet _ _ _ => Write
  | CallGet _ _ => Read
  | CallDelete _ _ => Delete
  end.

(** The command a flush appends for [op] while it is pending. *)
Definition command_of (op : call) : command :=
  match op with
  | CallSet k v cb => write_command k (stringified v) cb
  | CallGet k cb => GET k cb
  | CallDelete k cb => DEL k cb
  end.

Definition call_serializable (op : call) : bool :=
  match op with
  | CallSet _ v _ => serializable v
  | _ => true
  end.

(** An operation of [op]'s kind is pending for [op]'s key. *)
Definition same_kind_pending (op : call) (c : connector) : bool :=
  match op with
  | CallSet k _ _ => JsMap.has k (sets c)
  | CallGet k _ => JsMap.has k (gets c)
  | CallDelete k _ => JsMap.has k (deletes c)
  end.

(** [op] is a delete whose key has a pending set. *)
Definition cancels_pending_set (op : call) (c : connector) : bool :=
  match op with
  | CallDelete k _ => JsMap.has k (sets c)
  | _ => false
  end.

(** Nothing pending, nothing armed, nothing queued. *)
Definition quiescent (c : connector) : bool :=
  match sets c, gets c, deletes c, timeoutSet c, nextTicks c with
  | [], [], [], false, O => true
  | _, _, _, _, _ => false
  end.

Definition is_kind (k : kind) (op : call) : bool :=
  match k, call_kind op with
  | Write, Write => true
  | Delete, Delete => true
  | Read, Read => true
  | _, _ => false
  end.

(** What [scheduleFlush] leaves behind. *)
Definition scheduled (c : connector) : connector :=
  if timeoutSet c then c else with_nextTicks S (with_timeoutSet true c).

(** The first statement of [delete]; [set] and [get] have none. *)
Definition precancel (op : call) (c : connector) : connector :=
  match op with
  | CallDelete k _ => with_sets (JsMap.delete k) c
  | _ => c
  end.

(** The [Map.set] of a registration. *)
Definition insert (op : call) (c : connector) : connector :=
  match op with
  | CallSet k v cb => with_sets (JsMap.set k (v, cb)) c
  | CallGet k cb => with_gets (JsMap.set k cb) c
  | CallDelete k cb => with_deletes (JsMap.set k cb) c
  end.

(** [op] alone in the table. *)
Definition only (op : call) (c : connector) : Prop :=
  match op with
  | CallSet k v cb => sets c = [(k, (v, cb))] /\ gets c = [] /\ deletes c = []
  | CallGet k cb => sets c = [] /\ gets c = [(k, cb)] /\ deletes c = []
  | CallDelete k cb => sets c = [] /\ gets c = [] /\ deletes c = [(k, cb)]
  end.

(** The entries a list of calls adds to each mapping when no key repeats. *)
Definition set_entries (ops : list call) : JsMap.t (value * callback) :=
  flat_map (fun op => match op with
                      | CallSet k v cb => [(k, (v, cb))]
                      | _ => []
                      end) ops.

Definition get_entries (ops : list call) : JsMap.t callback :=
  flat_map (fun op => match op with
                      | CallGet k cb => [(k, cb)]
                      | _ => []
                      end) ops.

Definition delete_entries (ops : list call) : JsMap.t callback :=
  flat_map (fun op => match op with
                      | CallDelete k cb => [(k, cb)]
                      | _ => []
                      end) ops.

(** No key of [ops] is pending in [c], whatever the kind. *)
Definition unused (ops : list call) (c : connector) : Prop :=
  forall op, In op ops ->
    JsMap.has (call_key op) (sets c) = false
    /\ JsMap.has (call_key op) (gets c) = false
    /\ JsMap.has (call_key op) (deletes c) = false.

(** One synchronous turn of calls followed by its tick queue. *)
Definition turn (ops : list call) : js unit :=
  perform_all ops ;; end_of_turn.

(** Several turns, each followed by its tick queue. *)
Fixpoint run_turns (turns : list (list call)) : js unit :=
  match turns with
  | [] => ret tt
  | ops :: rest => turn ops ;; run_turns rest
  end.

(** The callbacks held by the pending operations, and the callbacks
    wired to the commands of the executed pipelines. *)
Definition pending_callbacks (c : connector) : list callback :=
  map (fun entry => snd (snd entry)) (sets c)
  ++ map (fun entry => snd entry) (deletes c)
  ++ map (fun entry => snd entry) (gets c).

Definition executed_callbacks (c : connector) : list callback :=
  flat_map (map command_callback) (executed c).

(** How many operations, pending or executed, hold [cb]. *)
Definition holds (cb : callback) (c : connector) : nat :=
  count_occ Nat.eq_dec (executed_callbacks c) cb
  + count_occ Nat.eq_dec (pending_callbacks c) cb.

(** No call of [ops], made in order from [c], is a delete whose key has a
    set pending at the time of the call. *)
Fixpoint cancel_free (ops : list call) (c : connector) : bool :=
  match ops with
  | [] => true
  | op :: rest =>
      negb (cancels_pending_set op c) && cancel_free rest (snd (perform op c))
  end.

Fixpoint cancel_free_turns (turns : list (list call)) (c : connector) : bool :=
  match turns with
  | [] => true
  | ops :: rest =>
      cancel_free ops c && cancel_free_turns rest (snd (turn ops c))
  end.

(** The flag and the tick queue agree with what is pending. *)
Definition armed_ok (c : connector) : Prop :=
  (timeoutSet c = true -> 1 <= nextTicks c)
  /\ (pending_callbacks c <> [] -> timeoutSet c = true).

(** Each mapping holds at most one entry per key. *)
Definition unique_keys (c : connector) : Prop :=
  NoDup (JsMap.keys (sets c))
  /\ NoDup (JsMap.keys (gets c))
  /\ NoDup (JsMap.keys (deletes c)).

(** *** Any interleaving of calls and ticks

    The host may register operations and let queued triggers fire in any
    order; a [Tick] with no trigger queued is no event at all. *)
Inductive event : Type :=
| Register (op : call)
| Tick.

Definition step (e : event) : js unit :=
  match e with
  | Register op => perform op
  | Tick => run_tick
  end.

(** Events one after the other; a throw ends the run. *)
Fixpoint run_events (es : list event) : js unit :=
  match es with
  | [] => ret tt
  | e :: rest => step e ;; run_events rest
  end.

Definition registered (es : list event) : list call :=
  flat_map (fun e => match e with
                     | Register op => [op]
                     | Tick => []
                     end) es.

(** The callbacks of the pending sets that [op] takes out of [sets]. *)
Definition cancelled_by (op : call) (c : connector) : list callback :=
  match op with
  | CallDelete k _ =>
      map (fun entry => snd (snd entry))
        (filter (fun entry => String.eqb k (fst entry)) (sets c))
  | _ => []
  end.

(** The callbacks cancelled along the run of [es] from [c]. *)
Fixpoint cancelled (es : list event) (c : connector) : list callback :=
  match es with
  | [] => []
  | e :: rest =>
      match e with
      | Register op => cancelled_by op c
      | Tick => []
      end ++ cancelled rest (snd (step e c))
  end.

(** What a command addresses: its kind and its key. *)
Definition slot (cmd : command) : kind * string :=
  (kind_of cmd, command_key cmd).

(** No two commands of [p] have the same kind and the same key. *)
Definition one_per_slot (p : pipeline) : Prop :=
  NoDup (map slot p).

(** No set of [ops] is followed by a delete for its key. *)
Fixpoint no_set_then_delete (ops : list call) : Prop :=
  match ops with
  | [] => True
  | CallSet k _ _ :: rest =>
      ~ In k (JsMap.keys (delete_entries rest)) /\ no_set_then_delete rest
  | _ :: rest => no_set_then_delete rest
  end.

(** No two calls of one kind share a key, and no delete comes after a
    set for its key. *)
Definition collision_free (ops : list call) : Prop :=
  NoDup (JsMap.keys (set_entries ops))
  /\ NoDup (JsMap.keys (get_entries ops))
  /\ NoDup (JsMap.keys (delete_entries ops))
  /\ no_set_then_delete ops.

(** [c] holds nothing that a call of [ops] would collide with or
    cancel. *)
Definition room (ops : list call) (c : connector) : Prop :=
  (forall k, In k (JsMap.keys (set_entries ops)) -> JsMap.has k (sets c) = false)
  /\ (forall k, In k (JsMap.keys (get_entries ops)) -> JsMap.has k (gets c) = false)
  /\ (forall k, In k (JsMap.keys (delete_entries ops)) ->
        JsMap.has k (deletes c) = false /\ JsMap.has k (sets c) = false).

(** The table has one entry per key and every executed pipeline one
    command per kind and key. *)
Definition tidy (c : connector) : Prop :=
  unique_keys c /\ Forall one_per_slot (executed c).

(** [op] is pending in [c] with its own payload and callback. *)
Definition is_pending (op : call) (c : connector) : Prop :=
  match op with
  | CallSet k v cb => JsMap.get k (sets c) = Some (v, cb)
  | CallGet k cb => JsMap.get k (gets c) = Some cb
  | CallDelete k cb => JsMap.get k (deletes c) = Some cb
  end.

(** ** Facts about the maps *)

Lemma has_app (V : Type) (k : string) (m m' : JsMap.t V) :
  JsMap.has k (m ++ m') = JsMap.has k m || JsMap.has k m'.
Proof.
  induction m as [|[k' v'] m IH]; simpl; [reflexivity|].
  destruct (String.eqb k k'); [reflexivity | exact IH].
Qed.

Lemma has_keys (V : Type) (k : string) (m : JsMap.t V) :
  JsMap.has k m = true <-> In k (JsMap.keys m).
Proof.
  induction m as [|[k' v'] m IH]; simpl.
  - split; [discriminate | contradiction].
  - destruct (String.eqb_spec k k') as [->|Hne].
    + split; auto.
    + rewrite IH. split; [now right | intros [E|H]; [congruence | exact H]].
Qed.

Lemma set_absent (V : Type) (k : string) (v : V) (m : JsMap.t V) :
  JsMap.has k m = false -> JsMap.set k v m = m ++ [(k, v)].
Proof.
  induction m as [|[k' v'] m IH]; simpl; [reflexivity|].
  destruct (String.eqb k k'); [discriminate|].
  intros H. now rewrite IH.
Qed.

Lemma delete_absent (V : Type) (k : string) (m : JsMap.t V) :
  JsMap.has k m = false -> JsMap.delete k m = m.
Proof.
  induction m as [|[k' v'] m IH]; simpl; [reflexivity|].
  destruct (String.eqb k k'); [discriminate|].
  intros H. now rewrite IH.
Qed.

Lemma has_delete (V : Type) (k k' : string) (m : JsMap.t V) :
  JsMap.has k (JsMap.delete k' m) = negb (String.eqb k k') && JsMap.has k m.
Proof.
  induction m as [|[k0 v0] m IH]; simpl.
  - now rewrite andb_false_r.
  - destruct (String.eqb_spec k' k0) as [->|Hne]; simpl.
    + rewrite IH. destruct (String.eqb k k0); reflexivity.
    + rewrite IH. destruct (String.eqb_spec k k0) as [->|Hne'].
      * destruct (String.eqb_spec k0 k'); [congruence | reflexivity].
      * reflexivity.
Qed.

Lemma delete_keys (V : Type) (k : string) (m : JsMap.t V) :
  ~ In k (JsMap.keys (JsMap.delete k m)).
Proof.
  rewrite <- has_keys, has_delete, String.eqb_refl. discriminate.
Qed.

Lemma delete_incl (V : Type) (k : string) (m : JsMap.t V) :
  incl (JsMap.delete k m) m.
Proof.
  induction m as [|[k' v'] m IH]; simpl; [apply incl_refl|].
  destruct (String.eqb k k').
  - now apply incl_tl.
  - apply incl_cons; [now left | now apply incl_tl].
Qed.

Lemma all_serializable_delete (k : string) (m : JsMap.t (value * callback)) :
  all_serializable m = true -> all_serializable (JsMap.delete k m) = true.
Proof.
  unfold all_serializable. rewrite !forallb_forall.
  intros H e He. apply H. eapply delete_incl, He.
Qed.

(** ** The loops of [flush] *)

Lemma append_deletes_map (p : pipeline) (l : list (string * callback)) :
  append_deletes p l = p ++ map delete_of l.
Proof.
  unfold append_deletes. revert p.
  induction l as [|e l IH]; intros p; simpl.
  - now rewrite app_nil_r.
  - rewrite IH, <- app_assoc. reflexivity.
Qed.

Lemma append_gets_map (p : pipeline) (l : list (string * callback)) :
  append_gets p l = p ++ map read_of l.
Proof.
  unfold append_gets. revert p.
  induction l as [|e l IH]; intros p; simpl.
  - now rewrite app_nil_r.
  - rewrite IH, <- app_assoc. reflexivity.
Qed.

Lemma append_set_returns (p : pipeline) (entry : string * (value * callback)) :
  serializable (fst (snd entry)) = true ->
  append_set p entry = inr (p ++ [write_of entry]).
Proof.
  unfold append_set, write_of, write_command, serializable, stringified.
  destruct (JSON_stringify (fst (snd entry))); [discriminate|].
  intros _. destruct ttl_truthy; reflexivity.
Qed.

Lemma append_sets_map (p : pipeline) (l : list (string * (value * callback))) :
  all_serializable l = true ->
  append_sets p l = inr (p ++ map write_of l).
Proof.
  revert p. induction l as [|entry l IH]; intros p; simpl.
  - now rewrite app_nil_r.
  - intros H. apply andb_prop in H. destruct H as [Hv Hl].
    rewrite (append_set_returns p _ Hv), (IH _ Hl), <- app_assoc. reflexivity.
Qed.

(** [JSON.stringify] throwing on some pending value is the only way the
    first loop ends early. *)
Lemma append_sets_throws (p : pipeline) (l : list (string * (value * callback))) :
  all_serializable l = false -> exists e, append_sets p l = inl e.
Proof.
  revert p. induction l as [|[k [v cb]] l IH]; intros p; simpl; [discriminate|].
  unfold append_set, serializable; simpl.
  destruct (JSON_stringify v) as [e|text]; simpl.
  - intros _. now exists e.
  - intros H. destruct ttl_truthy; now apply IH.
Qed.

(** ** [flush] as a function of the connector *)

Lemma flush_unfold (c : connector) :
  flush c =
  match append_sets [] (sets c) with
  | inl e => (Threw e, with_timeoutSet false c)
  | inr p1 =>
      (Returned tt,
       {| sets := []; gets := []; deletes := []; timeoutSet := false;
          nextTicks := nextTicks c;
          executed := executed c
                      ++ [append_gets (append_deletes p1 (deletes c)) (gets c)] |})
  end.
Proof.
  unfold flush, bind, modify, reads, lift, throw, ret, JsMap.entries; simpl.
  destruct (append_sets [] (sets c)); reflexivity.
Qed.

Lemma flush_returns (c : connector) :
  all_serializable (sets c) = true -> flush c = (Returned tt, flushed c).
Proof.
  intros H. rewrite flush_unfold, (append_sets_map [] _ H).
  unfold flushed, batch_of.
  now rewrite append_gets_map, append_deletes_map, <- app_assoc.
Qed.

Lemma flush_throws (c : connector) :
  all_serializable (sets c) = false ->
  exists e, flush c = (Threw e, with_timeoutSet false c).
Proof.
  intros H. destruct (append_sets_throws [] _ H) as [e He].
  exists e. now rewrite flush_unfold, He.
Qed.

Lemma flush_returned_inv (c c' : connector) (u : unit) :
  flush c = (Returned u, c') ->
  all_serializable (sets c) = true /\ c' = flushed c.
Proof.
  intros H. destruct (all_serializable (sets c)) eqn:E.
  - rewrite (flush_returns _ E) in H. split; [reflexivity | congruence].
  - destruct (flush_throws _ E) as [e He]. rewrite He in H. discriminate.
Qed.

(** ** Registration as a function of the connector *)

Lemma scheduleFlush_unfold (c : connector) :
  scheduleFlush c = (Returned tt, scheduled c).
Proof.
  unfold scheduleFlush, scheduled, bind, reads, when, modify, ret; simpl.
  destruct (timeoutSet c); reflexivity.
Qed.

Lemma same_kind_pending_precancel (op : call) (c : connector) :
  same_kind_pending op (precancel op c) = same_kind_pending op c.
Proof. destruct op; reflexivity. Qed.

Lemma perform_unfold (op : call) (c : connector) :
  perform op c =
  if same_kind_pending op c
  then match flush (precancel op c) with
       | (Returned _, c1) => (Returned tt, scheduled (insert op c1))
       | (Threw e, c1) => (Threw e, c1)
       end
  else (Returned tt, scheduled (insert op (precancel op c))).
Proof.
  destruct op as [k v cb|k cb|k cb]; simpl;
    unfold set, get, delete, bind, reads, when, modify, ret; simpl.
  - destruct (JsMap.has k (sets c)).
    + destruct (flush c) as [[u|e] c1]; [|reflexivity].
      simpl. now rewrite scheduleFlush_unfold.
    + now rewrite scheduleFlush_unfold.
  - destruct (JsMap.has k (gets c)).
    + destruct (flush c) as [[u|e] c1]; [|reflexivity].
      simpl. now rewrite scheduleFlush_unfold.
    + now rewrite scheduleFlush_unfold.
  - destruct (JsMap.has k (deletes c)).
    + destruct (flush (with_sets (JsMap.delete k) c)) as [[u|e] c1]; [|reflexivity].
      simpl. now rewrite scheduleFlush_unfold.
    + now rewrite scheduleFlush_unfold.
Qed.

Lemma all_serializable_precancel (op : call) (c : connector) :
  all_serializable (sets c) = true ->
  all_serializable (sets (precancel op c)) = true.
Proof.
  destruct op; simpl; auto. apply all_serializable_delete.
Qed.

(** A registration returns whenever every pending value serializes. *)
Lemma perform_returns (op : call) (c : connector) :
  all_serializable (sets c) = true ->
  perform op c =
  (Returned tt,
   scheduled (insert op (if same_kind_pending op c
                         then flushed (precancel op c)
                         else precancel op c))).
Proof.
  intros H. rewrite perform_unfold.
  destruct (same_kind_pending op c); [|reflexivity].
  now rewrite (flush_returns _ (all_serializable_precancel op _ H)).
Qed.

Lemma run_tick_unfold (c : connector) :
  run_tick c =
  match nextTicks c with
  | O => (Returned tt, c)
  | S n => flush (with_nextTicks (fun _ => n) c)
  end.
Proof. reflexivity. Qed.

(** ** The flush *)

(** C8: once a flush has returned, the three mappings are empty and
    [timeoutSet] is false; no key can be looked up in any of them, and a
    second flush finds nothing to append: it executes an empty pipeline. *)
Theorem flush_leaves_nothing_pending (c c' : connector) :
  flush c = (Returned tt, c') ->
  sets c' = [] /\ gets c' = [] /\ deletes c' = [] /\ timeoutSet c' = false
  /\ (forall k, JsMap.has k (sets c') = false
                /\ JsMap.has k (gets c') = false
                /\ JsMap.has k (deletes c') = false
                /\ JsMap.get k (sets c') = None
                /\ JsMap.get k (gets c') = None
                /\ JsMap.get k (deletes c') = None)
  /\ executed c' = executed c ++ [batch_of c]
  /\ flush c' = (Returned tt, with_exec [] c').
Proof.
  intros H. apply flush_returned_inv in H. destruct H as [_ ->].
  repeat split; reflexivity.
Qed.

Lemma kind_of_writes (l : list (string * (value * callback))) :
  map kind_of (map write_of l) = repeat Write (List.length l).
Proof.
  induction l as [|e l IH]; simpl; [reflexivity|].
  rewrite IH. unfold write_of, write_command.
  destruct ttl_truthy; reflexivity.
Qed.

Lemma kind_of_deletes (l : list (string * callback)) :
  map kind_of (map delete_of l) = repeat Delete (List.length l).
Proof. induction l; simpl; congruence. Qed.

Lemma kind_of_reads (l : list (string * callback)) :
  map kind_of (map read_of l) = repeat Read (List.length l).
Proof. induction l; simpl; congruence. Qed.

(** C3: the pipeline a flush executes holds one write per pending set, in
    the order of [sets], then one delete per pending delete, then one read
    per pending get; read by kind it is a run of writes, a run of deletes
    and a run of reads, whatever order the operations were registered
    in. *)
Theorem flush_groups_by_kind (c : connector) :
  all_serializable (sets c) = true ->
  exists c',
    flush c = (Returned tt, c')
    /\ executed c' =
       executed c
       ++ [map write_of (sets c) ++ map delete_of (deletes c) ++ map read_of (gets c)]
    /\ map kind_of
         (map write_of (sets c) ++ map delete_of (deletes c) ++ map read_of (gets c))
       = repeat Write (List.length (sets c))
         ++ repeat Delete (List.length (deletes c))
         ++ repeat Read (List.length (gets c)).
Proof.
  intros H. exists (flushed c). split; [now apply flush_returns|].
  split; [reflexivity|].
  now rewrite !map_app, kind_of_writes, kind_of_deletes, kind_of_reads.
Qed.

Lemma write_of_positive (n : Z) (l : list (string * (value * callback))) :
  ttl = Some n -> (0 < n)%Z ->
  map write_of l =
  map (fun e => SETEX (fst e) n (stringified (fst (snd e))) (snd (snd e))) l.
Proof.
  intros E Hn. apply map_ext. intros e.
  unfold write_of, write_command, ttl_truthy, ttl_seconds. rewrite E.
  destruct (Z.eqb_spec n 0); [lia | reflexivity].
Qed.

Lemma write_of_plain (l : list (string * (value * callback))) :
  ttl = None \/ ttl = Some 0%Z ->
  map write_of l =
  map (fun e => SET (fst e) (stringified (fst (snd e))) (snd (snd e))) l.
Proof.
  intros E. apply map_ext. intros e.
  unfold write_of, write_command, ttl_truthy.
  destruct E as [-> | ->]; reflexivity.
Qed.

(** C6: a flush writes every pending set with [setex] and the configured
    seconds when [options.ttl] is a positive integer, and with a plain
    [set] when it is zero or not configured. *)
Theorem flush_expiration (c : connector) :
  all_serializable (sets c) = true ->
  exists c' writes,
    flush c = (Returned tt, c')
    /\ executed c' =
       executed c ++ [writes ++ map delete_of (deletes c) ++ map read_of (gets c)]
    /\ (forall n, ttl = Some n -> (0 < n)%Z ->
         writes =
         map (fun e => SETEX (fst e) n (stringified (fst (snd e))) (snd (snd e)))
           (sets c))
    /\ (ttl = None \/ ttl = Some 0%Z ->
         writes =
         map (fun e => SET (fst e) (stringified (fst (snd e))) (snd (snd e)))
           (sets c)).
Proof.
  intros H. exists (flushed c), (map write_of (sets c)).
  split; [now apply flush_returns|]. split; [reflexivity|]. split.
  - intros n E Hn. now apply write_of_positive.
  - apply write_of_plain.
Qed.

(** ** Completion of a read *)

(** C4: when the read of a pending get completes with [(err, result)]:
    a null result invokes the callback with the store's [err] (null when
    the store reported none) and null; a result whose parse throws [e]
    invokes it with [e] alone; a result that parses to [v] invokes it with
    null and [v], whatever [err] was. *)
Theorem get_completion (c : connector) (key : string) (cb : callback)
  (err : option error) (result : reply) :
  (In (key, cb) (gets c) -> In (GET key cb) (batch_of c))
  /\ (result = RNull ->
      complete (GET key cb) (err, result) =
      [Invoke cb [arg_of_error err; ArgNull]])
  /\ (forall e, result <> RNull -> JSON_parse (reply_text result) = inl e ->
      complete (GET key cb) (err, result) = [Invoke cb [ArgError e]])
  /\ (forall v, result <> RNull -> JSON_parse (reply_text result) = inr v ->
      complete (GET key cb) (err, result) = [Invoke cb [ArgNull; ArgValue v]]).
Proof.
  split; [|split; [|split]].
  - intros H. unfold batch_of. rewrite !in_app_iff. right; right.
    change (GET key cb) with (read_of (key, cb)). now apply in_map.
  - intros ->. reflexivity.
  - intros e Hr He. simpl. unfold on_get_reply.
    destruct result; [congruence | |]; now rewrite He.
  - intros v Hr Hv. simpl. unfold on_get_reply.
    destruct result; [congruence | |]; now rewrite Hv.
Qed.

(** ** Registration *)

Lemma with_sets_same (c : connector) (m : JsMap.t (value * callback)) :
  m = sets c -> with_sets (fun _ => m) c = c.
Proof. intros ->. destruct c; reflexivity. Qed.

Lemma precancel_nothing (op : call) (c : connector) :
  cancels_pending_set op c = false -> precancel op c = c.
Proof.
  destruct op as [k v cb|k cb|k cb]; simpl; try reflexivity.
  intros H. unfold with_sets. rewrite (delete_absent _ _ H).
  destruct c; reflexivity.
Qed.

Lemma writes_avoid_deleted_key (k : string) (m : JsMap.t (value * callback))
  (cmd : command) :
  In cmd (map write_of (JsMap.delete k m)) -> command_key cmd <> k.
Proof.
  rewrite in_map_iff. intros [e [<- He]] Hk.
  apply (delete_keys k m). unfold JsMap.keys. rewrite in_map_iff.
  exists e. split; [|exact He].
  rewrite <- Hk. unfold write_of, write_command.
  destruct ttl_truthy; reflexivity.
Qed.

Lemma batch_avoids_deleted_key (k : string) (c : connector) (cmd : command) :
  In cmd (batch_of (with_sets (JsMap.delete k) c)) ->
  kind_of cmd = Write -> command_key cmd <> k.
Proof.
  unfold batch_of; simpl. rewrite !in_app_iff. intros [H|[H|H]] Hw.
  - now apply writes_avoid_deleted_key in H.
  - apply in_map_iff in H. destruct H as [e [<- _]]. discriminate.
  - apply in_map_iff in H. destruct H as [e [<- _]]. discriminate.
Qed.

(** C10: [delete k cb] first takes any pending set for [k] out of [sets].
    When no delete for [k] is pending nothing is executed: [gets] is
    untouched and the delete is appended to [deletes].  When one is
    pending, what is flushed is the table without the set for [k].  Either
    way, and also when the flush throws, no set for [k] is pending
    afterwards and no pipeline executed by the call holds a write for
    [k]: the cancelled set reaches no pipeline and its callback no
    command. *)
Theorem delete_cancels_pending_set (c : connector) (k : string) (cb : callback) :
  (JsMap.has k (deletes c) = false ->
   exists c1,
     delete k cb c = (Returned tt, c1)
     /\ sets c1 = JsMap.delete k (sets c)
     /\ gets c1 = gets c
     /\ deletes c1 = deletes c ++ [(k, cb)]
     /\ executed c1 = executed c)
  /\ (JsMap.has k (deletes c) = true ->
      all_serializable (JsMap.delete k (sets c)) = true ->
      exists c1,
        delete k cb c = (Returned tt, c1)
        /\ executed c1 =
           executed c
           ++ [map write_of (JsMap.delete k (sets c))
               ++ map delete_of (deletes c) ++ map read_of (gets c)]
        /\ sets c1 = [] /\ gets c1 = [] /\ deletes c1 = [(k, cb)])
  /\ (JsMap.has k (sets (snd (delete k cb c))) = false
      /\ exists new,
          executed (snd (delete k cb c)) = executed c ++ new
          /\ (JsMap.has k (deletes c) = false -> new = [])
          /\ forall p cmd, In p new -> In cmd p ->
               kind_of cmd = Write -> command_key cmd <> k).
Proof.
  change (delete k cb c) with (perform (CallDelete k cb) c).
  rewrite perform_unfold. simpl.
  destruct (JsMap.has k (deletes c)) eqn:Hd.
  - split; [discriminate|].
    destruct (all_serializable (JsMap.delete k (sets c))) eqn:Hs.
    + rewrite (flush_returns (with_sets (JsMap.delete k) c) Hs).
      split.
      * intros _ _. eexists. split; [reflexivity|].
        unfold scheduled; simpl. repeat split; reflexivity.
      * unfold scheduled; simpl. split; [reflexivity|].
        exists [batch_of (with_sets (JsMap.delete k) c)].
        split; [reflexivity|]. split; [discriminate|].
        intros p cmd [<-|[]]. apply batch_avoids_deleted_key.
    + destruct (flush_throws (with_sets (JsMap.delete k) c) Hs) as [e ->].
      split; [intros _ H; discriminate|].
      simpl. split.
      * rewrite has_delete, String.eqb_refl. reflexivity.
      * exists []. rewrite app_nil_r. split; [reflexivity|].
        split; [discriminate|]. intros p cmd [].
  - split; [|split; [discriminate|]].
    + intros _. eexists. split; [reflexivity|].
      unfold scheduled. destruct (timeoutSet _) eqn:Ht; simpl;
        rewrite (set_absent _ _ _ Hd); repeat split; reflexivity.
    + assert (Hsets : sets (scheduled (with_deletes (JsMap.set k cb)
                                 (with_sets (JsMap.delete k) c)))
                      = JsMap.delete k (sets c)).
      { unfold scheduled. destruct (timeoutSet _); reflexivity. }
      assert (Hex : executed (scheduled (with_deletes (JsMap.set k cb)
                                 (with_sets (JsMap.delete k) c)))
                    = executed c).
      { unfold scheduled. destruct (timeoutSet _); reflexivity. }
      simpl. rewrite Hsets, Hex. split.
      * rewrite has_delete, String.eqb_refl. reflexivity.
      * exists []. rewrite app_nil_r. split; [reflexivity|].
        split; [reflexivity|]. intros p cmd [].
Qed.

(** ** Calls on keys that are not pending *)

Lemma perform_unused (op : call) (c : connector) :
  unused [op] c ->
  exists c',
    perform op c = (Returned tt, c')
    /\ sets c' = sets c ++ set_entries [op]
    /\ gets c' = gets c ++ get_entries [op]
    /\ deletes c' = deletes c ++ delete_entries [op]
    /\ timeoutSet c' = true
    /\ nextTicks c' = (if timeoutSet c then nextTicks c else S (nextTicks c))
    /\ executed c' = executed c.
Proof.
  intros H. destruct (H op (or_introl eq_refl)) as [Hs [Hg Hd]].
  rewrite perform_unfold.
  assert (Hp : same_kind_pending op c = false) by (destruct op; assumption).
  rewrite Hp. eexists. split; [reflexivity|].
  destruct op as [k v cb|k cb|k cb]; simpl in *;
    unfold scheduled; simpl; destruct (timeoutSet c) eqn:Ht; simpl;
    rewrite ?Ht, ?app_nil_r, ?(set_absent _ _ _ Hs), ?(set_absent _ _ _ Hg),
      ?(set_absent _ _ _ Hd), ?(delete_absent _ _ Hs);
    repeat split; reflexivity.
Qed.

Lemma has_entries_keys (k : string) (ops : list call) :
  ~ In k (map call_key ops) ->
  JsMap.has k (set_entries ops) = false
  /\ JsMap.has k (get_entries ops) = false
  /\ JsMap.has k (delete_entries ops) = false.
Proof.
  induction ops as [|op ops IH]; simpl; [auto|].
  intros H. destruct IH as [I1 [I2 I3]].
  { intros Hin. apply H. now right. }
  assert (Hk : String.eqb k (call_key op) = false).
  { apply String.eqb_neq. intros E. apply H. now left. }
  destruct op; simpl in *; rewrite ?Hk; auto.
Qed.

Lemma perform_all_cons (op : call) (ops : list call) (c : connector) :
  perform_all (op :: ops) c =
  match perform op c with
  | (Returned _, c') => perform_all ops c'
  | (Threw e, c') => (Threw e, c')
  end.
Proof. reflexivity. Qed.

(** Calls on pairwise distinct keys, none of them pending: every call
    appends its entry, the first one arms the trigger, none flushes. *)
Lemma perform_all_distinct (ops : list call) (c : connector) :
  NoDup (map call_key ops) -> unused ops c ->
  exists c',
    perform_all ops c = (Returned tt, c')
    /\ sets c' = sets c ++ set_entries ops
    /\ gets c' = gets c ++ get_entries ops
    /\ deletes c' = deletes c ++ delete_entries ops
    /\ timeoutSet c' = (match ops with [] => timeoutSet c | _ => true end)
    /\ nextTicks c' = (match ops with
                       | [] => nextTicks c
                       | _ => if timeoutSet c then nextTicks c else S (nextTicks c)
                       end)
    /\ executed c' = executed c.
Proof.
  revert c. induction ops as [|op ops IH]; intros c Hnd Hu.
  - exists c. simpl. rewrite !app_nil_r. repeat split; reflexivity.
  - simpl in Hnd. apply NoDup_cons_iff in Hnd. destruct Hnd as [Hnotin Hnd'].
    destruct (perform_unused (op := op) (c := c)) as [c1 [E1 [S1 [G1 [D1 [T1 [N1 X1]]]]]]].
    { intros op' [<-|[]]. apply Hu. now left. }
    destruct (IH c1 Hnd') as [c2 [E2 [S2 [G2 [D2 [T2 [N2 X2]]]]]]].
    { intros op' Hin. destruct (Hu op' (or_intror Hin)) as [Hs [Hg Hd]].
      assert (Hne : ~ In (call_key op') (map call_key [op])).
      { simpl. intros [E|[]]. apply Hnotin. rewrite E. now apply in_map. }
      destruct (has_entries_keys _ _ Hne) as [K1 [K2 K3]].
      rewrite S1, G1, D1, !has_app, Hs, Hg, Hd, K1, K2, K3. auto. }
    exists c2. rewrite perform_all_cons, E1. split; [exact E2|].
    rewrite S2, G2, D2, X2, S1, G1, D1, X1, <- !app_assoc.
    unfold set_entries, get_entries, delete_entries; simpl.
    rewrite !app_nil_r.
    split; [reflexivity|]. split; [reflexivity|]. split; [reflexivity|].
    split; [|split; [|reflexivity]].
    + rewrite T2. destruct ops; [exact T1 | reflexivity].
    + rewrite N2, T1. destruct ops; exact N1.
Qed.

(** ** The conflict rule *)

Lemma perform_no_collision (op : call) (c : connector) :
  same_kind_pending op c = false ->
  exists c',
    perform op c = (Returned tt, c')
    /\ sets c' = sets (precancel op c) ++ set_entries [op]
    /\ gets c' = gets c ++ get_entries [op]
    /\ deletes c' = deletes c ++ delete_entries [op]
    /\ timeoutSet c' = true
    /\ nextTicks c' = (if timeoutSet c then nextTicks c else S (nextTicks c))
    /\ executed c' = executed c.
Proof.
  intros Hp. rewrite perform_unfold, Hp. eexists. split; [reflexivity|].
  destruct op as [k v cb|k cb|k cb]; simpl in *;
    unfold scheduled; simpl; destruct (timeoutSet c) eqn:Ht; simpl;
    rewrite ?Ht, ?app_nil_r, ?(set_absent _ _ _ Hp);
    repeat split; reflexivity.
Qed.

Lemma all_serializable_app (m m' : JsMap.t (value * callback)) :
  all_serializable (m ++ m') = all_serializable m && all_serializable m'.
Proof. apply forallb_app. Qed.

Lemma quiescent_inv (c : connector) :
  quiescent c = true ->
  sets c = [] /\ gets c = [] /\ deletes c = []
  /\ timeoutSet c = false /\ nextTicks c = 0.
Proof.
  unfold quiescent.
  destruct (sets c), (gets c), (deletes c), (timeoutSet c), (nextTicks c);
    try discriminate. auto.
Qed.

(** C7: in a connector whose flag and tick queue agree, with no set
    and no get pending for [k]: registering a set and a get for [k], in
    either order, executes nothing; both stay pending with the trigger
    armed and queued, and the next trigger to fire executes one pipeline
    that holds the write and the read and leaves nothing pending.  From
    a quiescent connector the turn ends with exactly that one pipeline,
    the write followed by the read, executed.  And whatever is pending
    in [c], a registration with no operation of its own kind pending for
    its key executes nothing and leaves the trigger armed. *)
Theorem set_and_get_coexist (c : connector) (k : string) (v : value)
  (cb1 cb2 : callback) :
  JsMap.has k (sets c) = false -> JsMap.has k (gets c) = false ->
  all_serializable (sets c) = true -> serializable v = true ->
  (timeoutSet c = true -> 1 <= nextTicks c) ->
  (forall ops,
     ops = [CallSet k v cb1; CallGet k cb2]
     \/ ops = [CallGet k cb2; CallSet k v cb1] ->
     exists c1 c2,
       perform_all ops c = (Returned tt, c1)
       /\ executed c1 = executed c
       /\ JsMap.get k (sets c1) = Some (v, cb1)
       /\ JsMap.get k (gets c1) = Some cb2
       /\ timeoutSet c1 = true
       /\ nextTicks c1 = (if timeoutSet c then nextTicks c else S (nextTicks c))
       /\ run_tick c1 = (Returned tt, c2)
       /\ executed c2 = executed c ++ [batch_of c1]
       /\ In (write_command k (stringified v) cb1) (batch_of c1)
       /\ In (GET k cb2) (batch_of c1)
       /\ sets c2 = [] /\ gets c2 = [] /\ deletes c2 = []
       /\ flush c1 = (Returned tt, flushed c1)
       /\ (quiescent c = true ->
           end_of_turn c1 = (Returned tt, c2)
           /\ executed c2 =
              executed c ++ [[write_command k (stringified v) cb1; GET k cb2]]
           /\ quiescent c2 = true))
  /\ (forall op,
        same_kind_pending op c = false ->
        exists c',
          perform op c = (Returned tt, c')
          /\ executed c' = executed c
          /\ timeoutSet c' = true
          /\ nextTicks c' = (if timeoutSet c then nextTicks c else S (nextTicks c))).
Proof.
  intros Hs Hg Hall Hv Harm. split.
  - intros ops Hops.
    assert (exists c1,
              perform_all ops c = (Returned tt, c1)
              /\ sets c1 = sets c ++ [(k, (v, cb1))]
              /\ gets c1 = gets c ++ [(k, cb2)]
              /\ deletes c1 = deletes c
              /\ timeoutSet c1 = true
              /\ nextTicks c1
                 = (if timeoutSet c then nextTicks c else S (nextTicks c))
              /\ executed c1 = executed c)
      as [c1 [E1 [S1 [G1 [D1 [T1 [N1 X1]]]]]]].
    { destruct Hops as [-> | ->]; rewrite perform_all_cons.
      - destruct (perform_no_collision (CallSet k v cb1) c Hs)
          as [c0 [E0 [S0 [G0 [D0 [T0 [N0 X0]]]]]]].
        rewrite E0.
        destruct (perform_no_collision (CallGet k cb2) c0)
          as [c1 [E1 [S1 [G1 [D1 [T1 [N1 X1]]]]]]].
        { simpl. rewrite G0. simpl. now rewrite app_nil_r. }
        exists c1. rewrite perform_all_cons, E1.
        simpl in S0, G0, D0, S1, G1, D1.
        rewrite T0 in N1.
        rewrite S1, G1, D1, S0, G0, D0, X1, X0, N1, N0, !app_nil_r.
        repeat split; try reflexivity; exact T1.
      - destruct (perform_no_collision (CallGet k cb2) c Hg)
          as [c0 [E0 [S0 [G0 [D0 [T0 [N0 X0]]]]]]].
        rewrite E0.
        destruct (perform_no_collision (CallSet k v cb1) c0)
          as [c1 [E1 [S1 [G1 [D1 [T1 [N1 X1]]]]]]].
        { simpl. rewrite S0. simpl. now rewrite app_nil_r. }
        exists c1. rewrite perform_all_cons, E1.
        simpl in S0, G0, D0, S1, G1, D1.
        rewrite T0 in N1.
        rewrite S1, G1, D1, S0, G0, D0, X1, X0, N1, N0, !app_nil_r.
        repeat split; try reflexivity; exact T1. }
    assert (Hall1 : all_serializable (sets c1) = true).
    { rewrite S1, all_serializable_app, Hall. simpl. now rewrite Hv. }
    assert (Hpos : 1 <= nextTicks c1).
    { rewrite N1. destruct (timeoutSet c); [now apply Harm | lia]. }
    destruct (nextTicks c1) as [|n] eqn:En; [lia|].
    exists c1, (flushed (with_nextTicks (fun _ => n) c1)).
    split; [exact E1|]. split; [exact X1|].
    split; [|split; [|split; [exact T1|split; [now rewrite En|]]]].
    + rewrite S1. clear - Hs. induction (sets c) as [|[k' x] m IH]; simpl in *.
      * now rewrite String.eqb_refl.
      * destruct (String.eqb k k'); [discriminate | now apply IH].
    + rewrite G1. clear - Hg. induction (gets c) as [|[k' x] m IH]; simpl in *.
      * now rewrite String.eqb_refl.
      * destruct (String.eqb k k'); [discriminate | now apply IH].
    + split; [|split; [|split; [|split]]].
      * rewrite run_tick_unfold, En. now apply flush_returns.
      * simpl. now rewrite X1.
      * unfold batch_of. rewrite S1, map_app, !in_app_iff. left; right.
        now left.
      * unfold batch_of. rewrite G1, map_app, !in_app_iff.
        right; right; right. now left.
      * split; [reflexivity|]. split; [reflexivity|]. split; [reflexivity|].
        split; [now apply flush_returns|].
        intros Hq. destruct (quiescent_inv c Hq) as [Qs [Qg [Qd [Qt Qn]]]].
        rewrite Qt, Qn in N1. injection N1 as ->.
        split; [|split].
        -- unfold end_of_turn. rewrite En. simpl. unfold bind.
           rewrite run_tick_unfold, En.
           now rewrite (flush_returns (with_nextTicks (fun _ => 0) c1) Hall1).
        -- simpl. rewrite X1. unfold batch_of. simpl.
           rewrite S1, G1, D1, Qs, Qg, Qd. reflexivity.
        -- reflexivity.
  - intros op Hp.
    destruct (perform_no_collision op c Hp) as [c' [E [_ [_ [_ [T [N X]]]]]]].
    exists c'. auto.
Qed.

(** A trigger that fires with nothing pending executes an empty
    pipeline. *)
Lemma stale_tick (c : connector) :
  sets c = [] -> gets c = [] -> deletes c = [] -> 1 <= nextTicks c ->
  exists c', run_tick c = (Returned tt, c') /\ executed c' = executed c ++ [[]].
Proof.
  intros Hs Hg Hd Hn. rewrite run_tick_unfold.
  destruct (nextTicks c) as [|n]; [lia|].
  rewrite flush_returns; [|simpl; now rewrite Hs].
  eexists. split; [reflexivity|].
  unfold flushed, batch_of; simpl. now rewrite Hs, Hg, Hd.
Qed.

(** C2 (amended): when an operation of [op]'s kind is pending for [op]'s
    key, and [op] is not a delete whose key has a pending set, and the
    pending values and [op]'s value serialize: the call executes one
    pipeline holding everything that was pending, the earlier operation
    among it, and leaves [op] alone in the table with the trigger armed;
    the next tick executes a second pipeline that holds [op]'s command
    only.  The forced flush has queued one trigger more than there were,
    and a trigger that was queued before it then executes an empty
    pipeline. *)
Theorem conflict_forces_split (c : connector) (op : call) :
  same_kind_pending op c = true ->
  cancels_pending_set op c = false ->
  all_serializable (sets c) = true ->
  call_serializable op = true ->
  exists c1 c2,
    perform op c = (Returned tt, c1)
    /\ executed c1 = executed c ++ [batch_of c]
    /\ (exists earlier, In earlier (batch_of c)
                        /\ kind_of earlier = call_kind op
                        /\ command_key earlier = call_key op)
    /\ only op c1
    /\ timeoutSet c1 = true
    /\ run_tick c1 = (Returned tt, c2)
    /\ executed c2 = executed c ++ [batch_of c; [command_of op]]
    /\ sets c2 = [] /\ gets c2 = [] /\ deletes c2 = []
    /\ nextTicks c1 = S (nextTicks c)
    /\ (1 <= nextTicks c ->
        exists c3,
          run_tick c2 = (Returned tt, c3)
          /\ executed c3 = executed c2 ++ [[]]).
Proof.
  intros Hp Hc Hs Ho.
  rewrite (perform_returns op c Hs), Hp, (precancel_nothing op c Hc).
  exists (scheduled (insert op (flushed c))),
    (flushed (with_nextTicks (fun _ => nextTicks c)
                (scheduled (insert op (flushed c))))).
  split; [reflexivity|].
  assert (Hearlier : exists earlier, In earlier (batch_of c)
                        /\ kind_of earlier = call_kind op
                        /\ command_key earlier = call_key op).
  { unfold batch_of.
    destruct op as [k v cb|k cb|k cb]; simpl in Hp;
      apply has_keys in Hp; unfold JsMap.keys in Hp;
      apply in_map_iff in Hp; destruct Hp as [e [Hk He]].
    - exists (write_of e). rewrite !in_app_iff. split; [left; now apply in_map|].
      unfold write_of, write_command. destruct ttl_truthy; simpl; auto.
    - exists (read_of e). rewrite !in_app_iff.
      split; [right; right; now apply in_map | simpl; auto].
    - exists (delete_of e). rewrite !in_app_iff.
      split; [right; left; now apply in_map | simpl; auto]. }
  destruct op as [k v cb|k cb|k cb]; simpl in Ho |- *;
    unfold scheduled; simpl;
    (split; [reflexivity|]); (split; [exact Hearlier|]);
    (split; [repeat split; reflexivity|]); (split; [reflexivity|]);
    rewrite run_tick_unfold; simpl;
    (rewrite flush_returns; [|simpl; rewrite ?Ho; reflexivity]);
    (split; [reflexivity|]);
    (split; [unfold flushed, batch_of; simpl;
             rewrite <- app_assoc; reflexivity|]);
    (split; [reflexivity|]); (split; [reflexivity|]);
    (split; [reflexivity|]); (split; [reflexivity|]);
    intros Hn; apply stale_tick; auto.
Qed.

(** ** Coalescing *)

Lemma quiescent_unused (ops : list call) (c : connector) :
  quiescent c = true -> unused ops c.
Proof.
  intros H op _. apply quiescent_inv in H.
  destruct H as [-> [-> [-> _]]]. auto.
Qed.

Lemma writes_of_calls (ops : list call) :
  map write_of (set_entries ops) = map command_of (filter (is_kind Write) ops).
Proof.
  induction ops as [|[k v cb|k cb|k cb] ops IH]; simpl;
    rewrite ?IH; reflexivity.
Qed.

Lemma deletes_of_calls (ops : list call) :
  map delete_of (delete_entries ops)
  = map command_of (filter (is_kind Delete) ops).
Proof.
  induction ops as [|[k v cb|k cb|k cb] ops IH]; simpl;
    rewrite ?IH; reflexivity.
Qed.

Lemma reads_of_calls (ops : list call) :
  map read_of (get_entries ops) = map command_of (filter (is_kind Read) ops).
Proof.
  induction ops as [|[k v cb|k cb|k cb] ops IH]; simpl;
    rewrite ?IH; reflexivity.
Qed.

Lemma entries_count (ops : list call) :
  List.length (set_entries ops) + List.length (delete_entries ops)
  + List.length (get_entries ops) = List.length ops.
Proof.
  induction ops as [|[k v cb|k cb|k cb] ops IH]; simpl; lia.
Qed.

Lemma set_entries_serializable (ops : list call) :
  forallb call_serializable ops = true ->
  all_serializable (set_entries ops) = true.
Proof.
  induction ops as [|[k v cb|k cb|k cb] ops IH]; simpl; auto.
  intros H. apply andb_prop in H. destruct H as [-> H]. now apply IH.
Qed.

Lemma NoDup_keys_firstn (n : nat) (ops : list call) :
  NoDup (map call_key ops) -> NoDup (map call_key (firstn n ops)).
Proof.
  intros H. rewrite <- (firstn_skipn n ops), map_app in H.
  now apply NoDup_app_remove_r in H.
Qed.

(** C5 (amended): while [timeoutSet] is true [scheduleFlush] queues
    nothing; a registration that forces a flush queues one trigger more
    than there were.  From a quiescent connector, a non-empty run of calls on
    pairwise distinct keys whose values serialize keeps at most one
    trigger queued after every call and executes nothing; when the turn
    ends exactly one pipeline is executed, it holds one command per call
    (writes, then deletes, then reads) and the connector is quiescent
    again. *)
Theorem distinct_keys_coalesce (c : connector) (ops : list call) :
  quiescent c = true ->
  NoDup (map call_key ops) ->
  ops <> [] ->
  forallb call_serializable ops = true ->
  (forall c0, timeoutSet c0 = true -> scheduleFlush c0 = (Returned tt, c0))
  /\ (forall c0 op,
        same_kind_pending op c0 = true ->
        all_serializable (sets c0) = true ->
        exists c1,
          perform op c0 = (Returned tt, c1)
          /\ nextTicks c1 = S (nextTicks c0))
  /\ (forall n, exists cn,
        perform_all (firstn n ops) c = (Returned tt, cn)
        /\ nextTicks cn <= 1
        /\ executed cn = executed c)
  /\ exists c1 c2 batch,
      perform_all ops c = (Returned tt, c1)
      /\ nextTicks c1 = 1
      /\ executed c1 = executed c
      /\ end_of_turn c1 = (Returned tt, c2)
      /\ executed c2 = executed c ++ [batch]
      /\ List.length batch = List.length ops
      /\ batch = map command_of (filter (is_kind Write) ops)
                 ++ map command_of (filter (is_kind Delete) ops)
                 ++ map command_of (filter (is_kind Read) ops)
      /\ quiescent c2 = true.
Proof.
  intros Hq Hnd Hne Hser.
  destruct (quiescent_inv _ Hq) as [Hs [Hg [Hd [Ht Hn]]]].
  split; [|split; [|split]].
  - intros c0 H0. rewrite scheduleFlush_unfold. unfold scheduled.
    now rewrite H0.
  - intros c0 op Hp0 Hs0. rewrite (perform_returns op c0 Hs0), Hp0.
    eexists. split; [reflexivity|].
    unfold scheduled. destruct op; reflexivity.
  - intros n.
    destruct (@perform_all_distinct (firstn n ops) c)
      as [cn [E [_ [_ [_ [_ [N X]]]]]]].
    + now apply NoDup_keys_firstn.
    + now apply quiescent_unused.
    + exists cn. split; [exact E|]. split; [|exact X].
      rewrite N, Ht, Hn. destruct (firstn n ops); lia.
  - destruct (@perform_all_distinct ops c Hnd (@quiescent_unused ops c Hq))
      as [c1 [E [S1 [G1 [D1 [T1 [N1 X1]]]]]]].
    rewrite Hs in S1. rewrite Hg in G1. rewrite Hd in D1.
    simpl in S1, G1, D1.
    assert (N1' : nextTicks c1 = 1).
    { rewrite N1, Ht, Hn. destruct ops; [contradiction | reflexivity]. }
    assert (Hall : all_serializable
                     (sets (with_nextTicks (fun _ => 0) c1)) = true).
    { simpl. rewrite S1. now apply set_entries_serializable. }
    exists c1, (flushed (with_nextTicks (fun _ => 0) c1)),
      (batch_of (with_nextTicks (fun _ => 0) c1)).
    split; [exact E|]. split; [exact N1'|]. split; [exact X1|].
    split; [|split; [|split; [|split]]].
    + unfold end_of_turn. rewrite N1'. simpl. unfold bind.
      rewrite run_tick_unfold, N1', (flush_returns _ Hall). reflexivity.
    + simpl. now rewrite X1.
    + unfold batch_of. simpl. rewrite S1, G1, D1.
      rewrite !length_app, !length_map. pose proof (entries_count ops). lia.
    + unfold batch_of. simpl. rewrite S1, G1, D1.
      now rewrite writes_of_calls, deletes_of_calls, reads_of_calls.
    + reflexivity.
Qed.

(** ** Every callback once *)

Lemma batch_callbacks (c : connector) :
  map command_callback (batch_of c) = pending_callbacks c.
Proof.
  unfold batch_of, pending_callbacks. rewrite !map_app, !map_map.
  assert (Hw : forall e, command_callback (write_of e) = snd (snd e)).
  { intros e. unfold write_of, write_command.
    destruct ttl_truthy; reflexivity. }
  rewrite (map_ext _ _ Hw). reflexivity.
Qed.

Lemma executed_callbacks_flushed (c : connector) :
  executed_callbacks (flushed c) = executed_callbacks c ++ pending_callbacks c.
Proof.
  unfold executed_callbacks, flushed; simpl.
  rewrite flat_map_app; simpl. now rewrite app_nil_r, batch_callbacks.
Qed.

Lemma holds_flushed (cb : callback) (c : connector) :
  holds cb (flushed c) = holds cb c.
Proof.
  unfold holds. rewrite executed_callbacks_flushed, count_occ_app.
  change (pending_callbacks (flushed c)) with (@nil callback). simpl. lia.
Qed.

Lemma holds_scheduled (cb : callback) (c : connector) :
  holds cb (scheduled c) = holds cb c.
Proof. unfold scheduled. destruct (timeoutSet c); reflexivity. Qed.

Lemma holds_insert (cb : callback) (op : call) (c : connector) :
  same_kind_pending op c = false ->
  holds cb (insert op c)
  = (if Nat.eq_dec (call_callback op) cb then 1 else 0) + holds cb c.
Proof.
  intros Hp. unfold holds, executed_callbacks, pending_callbacks.
  destruct op as [k v cb0|k cb0|k cb0]; simpl in *;
    rewrite (set_absent _ _ _ Hp), !count_occ_app, map_app, count_occ_app;
    simpl; destruct (Nat.eq_dec cb0 cb); lia.
Qed.

Lemma pending_nil (c : connector) :
  pending_callbacks c = [] -> sets c = [] /\ gets c = [] /\ deletes c = [].
Proof.
  unfold pending_callbacks. intros H.
  apply app_eq_nil in H. destruct H as [H1 H].
  apply app_eq_nil in H. destruct H as [H2 H3].
  apply map_eq_nil in H1, H2, H3. auto.
Qed.

(** One registration that cancels nothing: it returns, one more operation
    holds its callback, and nothing else changes hands. *)
Lemma perform_holds (op : call) (c : connector) :
  armed_ok c ->
  all_serializable (sets c) = true ->
  call_serializable op = true ->
  cancels_pending_set op c = false ->
  exists c',
    perform op c = (Returned tt, c')
    /\ armed_ok c'
    /\ all_serializable (sets c') = true
    /\ forall cb,
        holds cb c'
        = (if Nat.eq_dec (call_callback op) cb then 1 else 0) + holds cb c.
Proof.
  intros [Ha Hb] Hs Ho Hc.
  rewrite (perform_returns op c Hs), (precancel_nothing op c Hc).
  eexists. split; [reflexivity|].
  destruct (same_kind_pending op c) eqn:Hp.
  - split; [|split].
    + unfold armed_ok, scheduled.
      destruct op; simpl; (split; [lia | reflexivity]).
    + unfold scheduled. destruct op; simpl in *; rewrite ?Ho; reflexivity.
    + intros cb. rewrite holds_scheduled, holds_insert, holds_flushed.
      * reflexivity.
      * destruct op; reflexivity.
  - split; [|split].
    + unfold armed_ok, scheduled.
      assert (Ht : timeoutSet (insert op c) = timeoutSet c)
        by (destruct op; reflexivity).
      assert (Hn : nextTicks (insert op c) = nextTicks c)
        by (destruct op; reflexivity).
      rewrite Ht. destruct (timeoutSet c) eqn:E.
      * rewrite Ht, Hn. split; [intros _; now apply Ha | reflexivity].
      * simpl. split; [lia | reflexivity].
    + assert (Hsets : sets (scheduled (insert op c)) = sets (insert op c)).
      { unfold scheduled. destruct (timeoutSet (insert op c)); reflexivity. }
      rewrite Hsets. destruct op as [k v cb0|k cb0|k cb0]; simpl in *; auto.
      rewrite (set_absent _ _ _ Hp), all_serializable_app, Hs. simpl.
      now rewrite Ho.
    + intros cb. now rewrite holds_scheduled, holds_insert.
Qed.

Lemma perform_all_holds (ops : list call) (c : connector) :
  armed_ok c ->
  all_serializable (sets c) = true ->
  forallb call_serializable ops = true ->
  cancel_free ops c = true ->
  exists c',
    perform_all ops c = (Returned tt, c')
    /\ armed_ok c'
    /\ all_serializable (sets c') = true
    /\ forall cb,
        holds cb c'
        = count_occ Nat.eq_dec (map call_callback ops) cb + holds cb c.
Proof.
  revert c. induction ops as [|op ops IH]; intros c Ha Hs Ho Hc.
  - exists c. repeat split; auto; apply Ha.
  - simpl in Ho, Hc. apply andb_prop in Ho. destruct Ho as [Ho1 Ho2].
    apply andb_prop in Hc. destruct Hc as [Hc1 Hc2].
    apply negb_true_iff in Hc1.
    destruct (perform_holds op Ha Hs Ho1 Hc1) as [c1 [E1 [A1 [S1 H1]]]].
    rewrite E1 in Hc2. simpl in Hc2.
    destruct (IH c1 A1 S1 Ho2 Hc2) as [c2 [E2 [A2 [S2 H2]]]].
    exists c2. rewrite perform_all_cons, E1.
    split; [exact E2|]. split; [exact A2|]. split; [exact S2|].
    intros cb. rewrite H2, H1. simpl.
    destruct (Nat.eq_dec (call_callback op) cb); lia.
Qed.

(** The tick queue runs dry: the first trigger flushes what is pending,
    the others execute empty pipelines. *)
Lemma run_ticks_holds (n : nat) (c : connector) :
  nextTicks c = n ->
  armed_ok c ->
  all_serializable (sets c) = true ->
  exists c',
    run_ticks n c = (Returned tt, c')
    /\ quiescent c' = true
    /\ forall cb, holds cb c' = holds cb c.
Proof.
  revert c. induction n as [|n IH]; intros c Hn [Ha Hb] Hs.
  - exists c. split; [reflexivity|].
    assert (Ht : timeoutSet c = false).
    { destruct (timeoutSet c); [|reflexivity].
      specialize (Ha eq_refl). lia. }
    assert (Hp : pending_callbacks c = []).
    { destruct (pending_callbacks c) eqn:E; [reflexivity|].
      rewrite Hb in Ht; [discriminate | discriminate]. }
    destruct (pending_nil c Hp) as [H1 [H2 H3]].
    split; [|reflexivity].
    unfold quiescent. now rewrite H1, H2, H3, Ht, Hn.
  - simpl. unfold bind. rewrite run_tick_unfold, Hn.
    rewrite (flush_returns (with_nextTicks (fun _ => n) c) Hs).
    destruct (IH (flushed (with_nextTicks (fun _ => n) c)))
      as [c' [E [Q H]]].
    + reflexivity.
    + split; simpl; [discriminate | intros F; now elim F].
    + reflexivity.
    + exists c'. split; [exact E|]. split; [exact Q|].
      intros cb. rewrite H, holds_flushed. reflexivity.
Qed.

Lemma quiescent_armed_ok (c : connector) :
  quiescent c = true -> armed_ok c /\ all_serializable (sets c) = true.
Proof.
  intros H. destruct (quiescent_inv c H) as [Hs [Hg [Hd [Ht Hn]]]].
  unfold armed_ok, pending_callbacks. rewrite Hs, Hg, Hd, Ht.
  repeat split; [discriminate | intros F; now elim F].
Qed.

Lemma turn_holds (ops : list call) (c : connector) :
  quiescent c = true ->
  forallb call_serializable ops = true ->
  cancel_free ops c = true ->
  exists c',
    turn ops c = (Returned tt, c')
    /\ quiescent c' = true
    /\ forall cb,
        holds cb c'
        = count_occ Nat.eq_dec (map call_callback ops) cb + holds cb c.
Proof.
  intros Hq Ho Hc. destruct (quiescent_armed_ok c Hq) as [Ha Hs].
  destruct (perform_all_holds ops Ha Hs Ho Hc) as [c1 [E1 [A1 [S1 H1]]]].
  destruct (run_ticks_holds (c := c1) eq_refl A1 S1) as [c2 [E2 [Q2 H2]]].
  exists c2. unfold turn, bind. rewrite E1. unfold end_of_turn.
  split; [exact E2|]. split; [exact Q2|].
  intros cb. now rewrite H2, H1.
Qed.

Lemma run_turns_holds (turns : list (list call)) (c : connector) :
  quiescent c = true ->
  forallb (forallb call_serializable) turns = true ->
  cancel_free_turns turns c = true ->
  exists c',
    run_turns turns c = (Returned tt, c')
    /\ quiescent c' = true
    /\ forall cb,
        holds cb c'
        = count_occ Nat.eq_dec (map call_callback (List.concat turns)) cb
          + holds cb c.
Proof.
  revert c. induction turns as [|ops turns IH]; intros c Hq Ho Hc.
  - exists c. repeat split; auto.
  - simpl in Ho, Hc. apply andb_prop in Ho. destruct Ho as [Ho1 Ho2].
    apply andb_prop in Hc. destruct Hc as [Hc1 Hc2].
    destruct (turn_holds ops c Hq Ho1 Hc1) as [c1 [E1 [Q1 H1]]].
    rewrite E1 in Hc2. simpl in Hc2.
    destruct (IH c1 Q1 Ho2 Hc2) as [c2 [E2 [Q2 H2]]].
    exists c2. simpl. unfold bind. rewrite E1.
    split; [exact E2|]. split; [exact Q2|].
    intros cb. rewrite H2, H1. simpl. rewrite map_app, count_occ_app. lia.
Qed.

Lemma invoked_complete (cmd : command) (r : option error * reply) :
  map invoked (complete cmd r) = [command_callback cmd].
Proof.
  destruct cmd; try reflexivity.
  simpl. unfold on_get_reply.
  destruct (snd r); try reflexivity;
    destruct (JSON_parse _); reflexivity.
Qed.

Lemma invoked_deliver_all (answer : command -> option error * reply)
  (ps : list pipeline) :
  map invoked (deliver_all answer ps) = flat_map (map command_callback) ps.
Proof.
  unfold deliver_all, deliver.
  induction ps as [|p ps IH]; simpl; [reflexivity|].
  rewrite map_app, IH. f_equal.
  induction p as [|cmd p IHp]; simpl; [reflexivity|].
  now rewrite map_app, invoked_complete, IHp.
Qed.

(** Calls made over any number of turns on a fresh connector, none of
    them a delete whose key has a set pending at the time of the call,
    all values serializing: every turn returns, nothing is pending at
    the end, and once the store has answered every executed pipeline
    each callback has been invoked as many times as it was registered,
    so exactly once when it was registered once. *)
Theorem exactly_once_without_cancellation (turns : list (list call))
  (answer : command -> option error * reply) :
  forallb (forallb call_serializable) turns = true ->
  cancel_free_turns turns fresh = true ->
  exists c',
    run_turns turns fresh = (Returned tt, c')
    /\ quiescent c' = true
    /\ forall cb,
        times_invoked cb (deliver_all answer (executed c'))
        = count_occ Nat.eq_dec (map call_callback (List.concat turns)) cb.
Proof.
  intros Ho Hc.
  destruct (run_turns_holds turns fresh eq_refl Ho Hc) as [c' [E [Q H]]].
  exists c'. split; [exact E|]. split; [exact Q|].
  intros cb. unfold times_invoked. rewrite invoked_deliver_all.
  specialize (H cb). unfold holds in H.
  destruct (quiescent_inv c' Q) as [Hs [Hg [Hd _]]].
  unfold pending_callbacks in H. rewrite Hs, Hg, Hd in H.
  simpl in H. unfold executed_callbacks in H. lia.
Qed.

(** ** When a registration throws *)

Lemma append_sets_threw (p : pipeline) (l : list (string * (value * callback)))
  (e : error) :
  append_sets p l = inl e ->
  exists entry, In entry l /\ JSON_stringify (fst (snd entry)) = inl e.
Proof.
  revert p. induction l as [|entry l IH]; intros p; simpl; [discriminate|].
  unfold append_set.
  destruct (JSON_stringify (fst (snd entry))) as [e'|text] eqn:E.
  - intros H. exists entry. split; [now left | congruence].
  - destruct ttl_truthy; intros H; apply IH in H;
      destruct H as [entry' [Hin He]]; exists entry'; auto.
Qed.

(** A registration returns whenever every pending value serializes; when
    it throws, it was forcing a flush, what it throws is what
    [JSON.stringify] threw on a pending value, and nothing was
    executed. *)
Theorem registration_throws_only_in_forced_flush (op : call) (c : connector) :
  (all_serializable (sets c) = true ->
   exists c', perform op c = (Returned tt, c'))
  /\ (forall e c',
        perform op c = (Threw e, c') ->
        same_kind_pending op c = true
        /\ executed c' = executed c
        /\ exists entry,
            In entry (sets c) /\ JSON_stringify (fst (snd entry)) = inl e).
Proof.
  split.
  - intros H. rewrite (perform_returns op c H). eexists. reflexivity.
  - intros e c'. rewrite perform_unfold.
    destruct (same_kind_pending op c); [|discriminate].
    rewrite flush_unfold.
    destruct (append_sets [] (sets (precancel op c))) as [e0|p1] eqn:E;
      [|discriminate].
    intros H. inversion H; subst e0 c'. clear H.
    split; [reflexivity|]. split; [destruct op; reflexivity|].
    destruct (append_sets_threw _ _ E) as [entry [Hin He]].
    exists entry. split; [|exact He].
    destruct op; simpl in Hin; auto. eapply delete_incl, Hin.
Qed.

(** ** One entry per key *)

Lemma set_keys (V : Type) (k : string) (v : V) (m : JsMap.t V) :
  JsMap.keys (JsMap.set k v m)
  = if JsMap.has k m then JsMap.keys m else JsMap.keys m ++ [k].
Proof.
  induction m as [|[k' v'] m IH]; simpl; [reflexivity|].
  destruct (String.eqb_spec k k') as [->|Hne]; simpl; [reflexivity|].
  rewrite IH. destruct (JsMap.has k m); reflexivity.
Qed.

Lemma set_keys_NoDup (V : Type) (k : string) (v : V) (m : JsMap.t V) :
  NoDup (JsMap.keys m) -> NoDup (JsMap.keys (JsMap.set k v m)).
Proof.
  intros H. rewrite set_keys. destruct (JsMap.has k m) eqn:E; [exact H|].
  apply NoDup_app; [exact H | repeat constructor; intros [] |].
  intros x Hx [<-|[]]. apply has_keys in Hx. congruence.
Qed.

Lemma delete_keys_NoDup (V : Type) (k : string) (m : JsMap.t V) :
  NoDup (JsMap.keys m) -> NoDup (JsMap.keys (JsMap.delete k m)).
Proof.
  induction m as [|[k' v'] m IH]; simpl; [auto|].
  intros H. apply NoDup_cons_iff in H. destruct H as [Hn H].
  destruct (String.eqb k k'); [now apply IH|].
  simpl. constructor; [|now apply IH].
  intros Hin. apply Hn. unfold JsMap.keys in *.
  apply in_map_iff in Hin. destruct Hin as [e [He Hin]].
  apply in_map_iff. exists e. split; [exact He|].
  eapply delete_incl, Hin.
Qed.


(** ** Any interleaving of registrations and ticks *)

Lemma count_delete_split (cb : callback) (k : string)
  (m : JsMap.t (value * callback)) :
  count_occ Nat.eq_dec (map (fun e => snd (snd e)) (JsMap.delete k m)) cb
  + count_occ Nat.eq_dec
      (map (fun e => snd (snd e))
         (filter (fun e => String.eqb k (fst e)) m)) cb
  = count_occ Nat.eq_dec (map (fun e => snd (snd e)) m) cb.
Proof.
  induction m as [|[k' [v' cb']] m IH]; simpl; [reflexivity|].
  destruct (String.eqb k k'); simpl;
    destruct (Nat.eq_dec cb' cb); lia.
Qed.

Lemma holds_precancel (cb : callback) (op : call) (c : connector) :
  holds cb (precancel op c) + count_occ Nat.eq_dec (cancelled_by op c) cb
  = holds cb c.
Proof.
  destruct op as [k v cb0|k cb0|k cb0]; simpl; try lia.
  unfold holds, executed_callbacks, pending_callbacks; simpl.
  rewrite !count_occ_app.
  pose proof (count_delete_split cb k (sets c)). lia.
Qed.

Lemma armed_ok_scheduled_insert (op : call) (c : connector) :
  (timeoutSet c = true -> 1 <= nextTicks c) ->
  armed_ok (scheduled (insert op c)).
Proof.
  intros Ha. unfold armed_ok, scheduled.
  assert (Ht : timeoutSet (insert op c) = timeoutSet c)
    by (destruct op; reflexivity).
  assert (Hn : nextTicks (insert op c) = nextTicks c)
    by (destruct op; reflexivity).
  rewrite Ht. destruct (timeoutSet c) eqn:E.
  - rewrite Ht, Hn. split; [intros _; now apply Ha | reflexivity].
  - simpl. split; [lia | reflexivity].
Qed.

Lemma sets_scheduled (c : connector) : sets (scheduled c) = sets c.
Proof. unfold scheduled. destruct (timeoutSet c); reflexivity. Qed.

Lemma insert_serializable (op : call) (c : connector) :
  same_kind_pending op c = false ->
  all_serializable (sets c) = true ->
  call_serializable op = true ->
  all_serializable (sets (insert op c)) = true.
Proof.
  intros Hp Hs Ho. destruct op as [k v cb|k cb|k cb]; simpl in *; auto.
  rewrite (set_absent _ _ _ Hp), all_serializable_app, Hs. simpl.
  now rewrite Ho.
Qed.

(** One event, values serializing: it returns, keeps flag and queue in
    step with the table, and every callback is accounted for. *)
Lemma step_accounts (e : event) (c : connector) :
  armed_ok c ->
  all_serializable (sets c) = true ->
  forallb call_serializable (registered [e]) = true ->
  exists c',
    step e c = (Returned tt, c')
    /\ armed_ok c'
    /\ all_serializable (sets c') = true
    /\ forall cb,
        holds cb c' + count_occ Nat.eq_dec (cancelled [e] c) cb
        = count_occ Nat.eq_dec (map call_callback (registered [e])) cb
          + holds cb c.
Proof.
  intros [Ha Hb] Hs He. destruct e as [op|]; simpl in *.
  - rewrite andb_true_r in He.
    rewrite (perform_returns op c Hs).
    pose proof (all_serializable_precancel op c Hs) as Hs0.
    assert (Ha0 : timeoutSet (precancel op c) = true ->
                  1 <= nextTicks (precancel op c))
      by (destruct op; exact Ha).
    eexists. split; [reflexivity|].
    destruct (same_kind_pending op c) eqn:Hp.
    + split; [|split].
      * apply armed_ok_scheduled_insert. simpl. discriminate.
      * rewrite sets_scheduled. apply insert_serializable; auto.
        destruct op; reflexivity.
      * intros cb. rewrite !app_nil_r, holds_scheduled, holds_insert,
          holds_flushed by (destruct op; reflexivity).
        pose proof (holds_precancel cb op c).
        destruct (Nat.eq_dec (call_callback op) cb); lia.
    + split; [|split].
      * now apply armed_ok_scheduled_insert.
      * rewrite sets_scheduled. apply insert_serializable; auto.
        now rewrite same_kind_pending_precancel.
      * intros cb. rewrite !app_nil_r, holds_scheduled, holds_insert
          by now rewrite same_kind_pending_precancel.
        pose proof (holds_precancel cb op c).
        destruct (Nat.eq_dec (call_callback op) cb); lia.
  - assert (Hok : armed_ok c) by (split; assumption).
    rewrite run_tick_unfold. destruct (nextTicks c) as [|n] eqn:Hn.
    + exists c. repeat split; auto; apply Hok.
    + rewrite (flush_returns (with_nextTicks (fun _ => n) c) Hs).
      eexists. split; [reflexivity|]. split; [|split].
      * split; simpl; [discriminate | intros F; now elim F].
      * reflexivity.
      * intros cb. rewrite holds_flushed. simpl.
        change (holds cb (with_nextTicks (fun _ => n) c)) with (holds cb c).
        lia.
Qed.

Lemma run_events_cons (e : event) (es : list event) (c : connector) :
  run_events (e :: es) c =
  match step e c with
  | (Returned _, c') => run_events es c'
  | (Threw x, c') => (Threw x, c')
  end.
Proof. reflexivity. Qed.

Lemma registered_cons (e : event) (es : list event) :
  registered (e :: es) = registered [e] ++ registered es.
Proof. simpl. now rewrite app_nil_r. Qed.

Lemma cancelled_cons (e : event) (es : list event) (c : connector) :
  cancelled (e :: es) c = cancelled [e] c ++ cancelled es (snd (step e c)).
Proof. simpl. now rewrite app_nil_r. Qed.

Lemma run_events_accounts (es : list event) (c : connector) :
  armed_ok c ->
  all_serializable (sets c) = true ->
  forallb call_serializable (registered es) = true ->
  exists c',
    run_events es c = (Returned tt, c')
    /\ armed_ok c'
    /\ all_serializable (sets c') = true
    /\ forall cb,
        holds cb c' + count_occ Nat.eq_dec (cancelled es c) cb
        = count_occ Nat.eq_dec (map call_callback (registered es)) cb
          + holds cb c.
Proof.
  revert c. induction es as [|e es IH]; intros c Ha Hs He.
  - exists c. split; [reflexivity|]. split; [exact Ha|]. split; [exact Hs|].
    intros cb. simpl. lia.
  - rewrite registered_cons, forallb_app in He. apply andb_prop in He. destruct He as [He1 He2].
    destruct (step_accounts e Ha Hs He1) as [c1 [E1 [A1 [S1 H1]]]].
    destruct (IH c1 A1 S1 He2) as [c2 [E2 [A2 [S2 H2]]]].
    exists c2. rewrite run_events_cons, E1.
    split; [exact E2|]. split; [exact A2|]. split; [exact S2|].
    intros cb. specialize (H1 cb). specialize (H2 cb).
    rewrite registered_cons, cancelled_cons, E1. simpl snd.
    rewrite map_app, !count_occ_app. lia.
Qed.

(** In whatever order registrations and ticks come, as long as the
    values serialize: every event returns; whenever something is pending
    the flag is set and a trigger is queued; and once the queued triggers
    have fired nothing is pending, the flag is clear and the queue is
    empty. *)
Theorem nothing_stranded (es : list event) :
  forallb call_serializable (registered es) = true ->
  exists c',
    run_events es fresh = (Returned tt, c')
    /\ (pending_callbacks c' <> [] ->
        timeoutSet c' = true /\ 1 <= nextTicks c')
    /\ exists c'',
        end_of_turn c' = (Returned tt, c'') /\ quiescent c'' = true.
Proof.
  intros He.
  destruct (quiescent_armed_ok fresh eq_refl) as [Ha Hs].
  destruct (run_events_accounts es Ha Hs He) as [c' [E [[A1 A2] [S _]]]].
  exists c'. split; [exact E|]. split.
  - intros Hp. split; [now apply A2 | apply A1; now apply A2].
  - destruct (run_ticks_holds (c := c') eq_refl (conj A1 A2) S)
      as [c'' [E2 [Q _]]].
    exists c''. split; [exact E2 | exact Q].
Qed.

(** Every callback is accounted for: after any interleaving of
    registrations and ticks whose values serialize, and once the queue
    has run dry and the store has answered, the number of times a
    callback was invoked plus the number of times a delete cancelled a
    pending set holding it is the number of times it was registered. *)
Theorem callbacks_accounted (es : list event)
  (answer : command -> option error * reply) :
  forallb call_serializable (registered es) = true ->
  exists c' c'',
    run_events es fresh = (Returned tt, c')
    /\ end_of_turn c' = (Returned tt, c'')
    /\ forall cb,
        times_invoked cb (deliver_all answer (executed c''))
        + count_occ Nat.eq_dec (cancelled es fresh) cb
        = count_occ Nat.eq_dec (map call_callback (registered es)) cb.
Proof.
  intros He.
  destruct (quiescent_armed_ok fresh eq_refl) as [Ha Hs].
  destruct (run_events_accounts es Ha Hs He) as [c' [E [A [S H]]]].
  destruct (run_ticks_holds (c := c') eq_refl A S) as [c'' [E2 [Q H2]]].
  exists c', c''. split; [exact E|]. split; [exact E2|].
  intros cb. unfold times_invoked. rewrite invoked_deliver_all.
  specialize (H cb). specialize (H2 cb). unfold holds in H2 at 1.
  destruct (quiescent_inv c'' Q) as [Hs'' [Hg'' [Hd'' _]]].
  unfold pending_callbacks in H2 at 1. rewrite Hs'', Hg'', Hd'' in H2.
  simpl in H2. unfold executed_callbacks in H2 at 1.
  change (holds cb fresh) with 0 in H. lia.
Qed.

Lemma holds_with_timeoutSet (cb : callback) (b : bool) (c : connector) :
  holds cb (with_timeoutSet b c) = holds cb c.
Proof. reflexivity. Qed.

(** One event, whatever its outcome: no callback gains more than the
    one command or pending operation its registration gives it. *)
Lemma step_holds_le (e : event) (c : connector) (cb : callback) :
  holds cb (snd (step e c))
  <= count_occ Nat.eq_dec (map call_callback (registered [e])) cb
     + holds cb c.
Proof.
  destruct e as [op|]; simpl.
  - pose proof (holds_precancel cb op c) as Hpre.
    rewrite perform_unfold.
    destruct (same_kind_pending op c) eqn:Hp.
    + destruct (all_serializable (sets (precancel op c))) eqn:Hs.
      * rewrite (flush_returns _ Hs). simpl.
        rewrite holds_scheduled, holds_insert, holds_flushed
          by (destruct op; reflexivity).
        destruct (Nat.eq_dec (call_callback op) cb); lia.
      * destruct (flush_throws _ Hs) as [x ->]. simpl.
        rewrite holds_with_timeoutSet. lia.
    + simpl. rewrite holds_scheduled, holds_insert
        by now rewrite same_kind_pending_precancel.
      destruct (Nat.eq_dec (call_callback op) cb); lia.
  - rewrite run_tick_unfold. destruct (nextTicks c) as [|n]; [simpl; lia|].
    destruct (all_serializable (sets (with_nextTicks (fun _ => n) c))) eqn:Hs.
    + rewrite (flush_returns _ Hs). simpl. rewrite holds_flushed.
      change (holds cb (with_nextTicks (fun _ => n) c)) with (holds cb c). lia.
    + destruct (flush_throws _ Hs) as [x ->]. simpl.
      change (holds cb (with_timeoutSet false (with_nextTicks (fun _ => n) c)))
        with (holds cb c). lia.
Qed.

Lemma run_events_holds_le (es : list event) (c : connector) (cb : callback) :
  holds cb (snd (run_events es c))
  <= count_occ Nat.eq_dec (map call_callback (registered es)) cb
     + holds cb c.
Proof.
  revert c. induction es as [|e es IH]; intros c; [simpl; lia|].
  pose proof (step_holds_le e c cb) as H1.
  rewrite run_events_cons, registered_cons, map_app, count_occ_app.
  destruct (step e c) as [[u|x] c1]; simpl in H1 |- *.
  - specialize (IH c1). lia.
  - lia.
Qed.

(** Nothing is invoked twice: after any registrations and ticks at all,
    also when a flush threw and ended the run, however the store answers
    the executed pipelines no callback is invoked more often than it was
    registered. *)
Theorem never_invoked_twice (es : list event)
  (answer : command -> option error * reply) (cb : callback) :
  times_invoked cb
    (deliver_all answer (executed (snd (run_events es fresh))))
  <= count_occ Nat.eq_dec (map call_callback (registered es)) cb.
Proof.
  pose proof (run_events_holds_le es fresh cb) as H.
  unfold times_invoked. rewrite invoked_deliver_all.
  unfold holds, executed_callbacks in H.
  change (count_occ Nat.eq_dec (flat_map (map command_callback) (executed fresh)) cb)
    with 0 in H.
  change (count_occ Nat.eq_dec (pending_callbacks fresh) cb) with 0 in H.
  lia.
Qed.

(** ** One command per kind and key *)

Lemma NoDup_tagged (K : kind) (l : list string) :
  NoDup l -> NoDup (map (pair K) l).
Proof.
  induction 1 as [|k l Hk Hl IH]; simpl; constructor; [|exact IH].
  rewrite in_map_iff. intros [k' [E Hin]]. inversion E; subst k'.
  contradiction.
Qed.

Lemma slots_of_batch (c : connector) :
  map slot (batch_of c)
  = map (pair Write) (JsMap.keys (sets c))
    ++ map (pair Delete) (JsMap.keys (deletes c))
    ++ map (pair Read) (JsMap.keys (gets c)).
Proof.
  unfold batch_of, JsMap.keys. rewrite !map_app, !map_map.
  assert (Hw : forall e, slot (write_of e) = (Write, fst e)).
  { intros e. unfold slot, write_of, write_command.
    destruct ttl_truthy; reflexivity. }
  rewrite (map_ext _ _ Hw). reflexivity.
Qed.

Lemma batch_one_per_slot (c : connector) :
  unique_keys c -> one_per_slot (batch_of c).
Proof.
  intros [Hs [Hg Hd]]. unfold one_per_slot. rewrite slots_of_batch.
  apply NoDup_app; [now apply NoDup_tagged | |].
  - apply NoDup_app; [now apply NoDup_tagged | now apply NoDup_tagged |].
    intros x Hx Hy. apply in_map_iff in Hx. apply in_map_iff in Hy.
    destruct Hx as [k1 [<- _]]. destruct Hy as [k2 [E _]]. discriminate.
  - intros x Hx Hy. apply in_map_iff in Hx. destruct Hx as [k1 [<- _]].
    apply in_app_iff in Hy. destruct Hy as [Hy|Hy];
      apply in_map_iff in Hy; destruct Hy as [k2 [E _]]; discriminate.
Qed.

Lemma tidy_scheduled (c : connector) : tidy c -> tidy (scheduled c).
Proof. unfold scheduled. destruct (timeoutSet c); auto. Qed.

Lemma tidy_insert (op : call) (c : connector) : tidy c -> tidy (insert op c).
Proof.
  intros [[Hs [Hg Hd]] Hx]. unfold tidy, unique_keys.
  destruct op; simpl; repeat split; auto; now apply set_keys_NoDup.
Qed.

Lemma tidy_precancel (op : call) (c : connector) :
  tidy c -> tidy (precancel op c).
Proof.
  intros [[Hs [Hg Hd]] Hx]. unfold tidy, unique_keys.
  destruct op; simpl; repeat split; auto. now apply delete_keys_NoDup.
Qed.

Lemma tidy_flushed (c : connector) : tidy c -> tidy (flushed c).
Proof.
  intros [Hu Hx]. unfold tidy, unique_keys; simpl.
  repeat split; try constructor.
  apply Forall_app. split; [exact Hx|].
  constructor; [now apply batch_one_per_slot | constructor].
Qed.

Lemma tidy_flush (c : connector) : tidy c -> tidy (snd (flush c)).
Proof.
  intros H. destruct (all_serializable (sets c)) eqn:Hs.
  - rewrite (flush_returns _ Hs). now apply tidy_flushed.
  - destruct (flush_throws _ Hs) as [x ->]. exact H.
Qed.

Lemma tidy_step (e : event) (c : connector) : tidy c -> tidy (snd (step e c)).
Proof.
  intros H. destruct e as [op|]; simpl.
  - rewrite perform_unfold. apply (tidy_precancel op) in H.
    destruct (same_kind_pending op c).
    + pose proof (tidy_flush H) as Hf.
      destruct (flush (precancel op c)) as [[u|x] c1]; simpl in Hf |- *.
      * now apply tidy_scheduled, tidy_insert.
      * exact Hf.
    + simpl. now apply tidy_scheduled, tidy_insert.
  - rewrite run_tick_unfold. destruct (nextTicks c) as [|n]; [exact H|].
    apply tidy_flush. exact H.
Qed.

Lemma tidy_run_events (es : list event) (c : connector) :
  tidy c -> tidy (snd (run_events es c)).
Proof.
  revert c. induction es as [|e es IH]; intros c H; [exact H|].
  rewrite run_events_cons. pose proof (tidy_step e H) as H1.
  destruct (step e c) as [[u|x] c1]; simpl in H1 |- *; auto.
Qed.

(** After any registrations and ticks at all, every pipeline that was
    executed holds at most one write, one delete and one read per key. *)
Theorem one_command_per_kind_and_key (es : list event) :
  Forall one_per_slot (executed (snd (run_events es fresh))).
Proof.
  apply (tidy_run_events es (c := fresh)).
  split; [|constructor]. repeat split; constructor.
Qed.

(** ** A window without collisions *)

Lemma perform_all_collision_free (ops : list call) (c : connector) :
  collision_free ops -> room ops c ->
  exists c',
    perform_all ops c = (Returned tt, c')
    /\ sets c' = sets c ++ set_entries ops
    /\ gets c' = gets c ++ get_entries ops
    /\ deletes c' = deletes c ++ delete_entries ops
    /\ nextTicks c' = (match ops with
                       | [] => nextTicks c
                       | _ => if timeoutSet c then nextTicks c else S (nextTicks c)
                       end)
    /\ executed c' = executed c.
Proof.
  revert c. induction ops as [|op ops IH]; intros c Hcf Hroom.
  - exists c. simpl. rewrite !app_nil_r. repeat split; reflexivity.
  - destruct Hcf as [Ns [Ng [Nd Hsd]]]. destruct Hroom as [Rs [Rg Rd]].
    assert (Hp : same_kind_pending op c = false).
    { destruct op as [k v cb|k cb|k cb]; simpl.
      - apply Rs. now left.
      - apply Rg. now left.
      - apply Rd. now left. }
    assert (Hpre : sets (precancel op c) = sets c).
    { destruct op as [k v cb|k cb|k cb]; simpl; try reflexivity.
      apply delete_absent. apply Rd. now left. }
    destruct (perform_no_collision op c Hp)
      as [c1 [E1 [S1 [G1 [D1 [T1 [N1 X1]]]]]]].
    rewrite Hpre in S1.
    destruct (IH c1) as [c2 [E2 [S2 [G2 [D2 [N2 X2]]]]]].
    { unfold collision_free.
      destruct op as [k v cb|k cb|k cb]; simpl in Ns, Ng, Nd, Hsd.
      - apply NoDup_cons_iff in Ns. destruct Ns as [_ Ns].
        destruct Hsd as [_ Hsd]. repeat split; assumption.
      - apply NoDup_cons_iff in Ng. destruct Ng as [_ Ng].
        repeat split; assumption.
      - apply NoDup_cons_iff in Nd. destruct Nd as [_ Nd].
        repeat split; assumption. }
    { unfold room. rewrite S1, G1, D1.
      destruct op as [k v cb|k cb|k cb]; simpl in Ns, Ng, Nd, Hsd, Rs, Rg, Rd |- *;
        rewrite ?app_nil_r; (split; [|split]); intros k' Hk'.
      - apply NoDup_cons_iff in Ns. destruct Ns as [Hk _].
        rewrite has_app, (Rs k' (or_intror Hk')). simpl.
        destruct (String.eqb_spec k' k) as [->|]; [contradiction | reflexivity].
      - now apply Rg.
      - destruct Hsd as [Hk _]. destruct (Rd k' Hk') as [R1 R2].
        split; [exact R1|]. rewrite has_app, R2. simpl.
        destruct (String.eqb_spec k' k) as [->|]; [contradiction | reflexivity].
      - now apply Rs.
      - apply NoDup_cons_iff in Ng. destruct Ng as [Hk _].
        rewrite has_app, (Rg k' (or_intror Hk')). simpl.
        destruct (String.eqb_spec k' k) as [->|]; [contradiction | reflexivity].
      - now apply Rd.
      - now apply Rs.
      - now apply Rg.
      - apply NoDup_cons_iff in Nd. destruct Nd as [Hk _].
        destruct (Rd k' (or_intror Hk')) as [R1 R2].
        split; [|exact R2]. rewrite has_app, R1. simpl.
        destruct (String.eqb_spec k' k) as [->|]; [contradiction | reflexivity]. }
    exists c2. rewrite perform_all_cons, E1. split; [exact E2|].
    rewrite S2, G2, D2, X2, S1, G1, D1, X1, <- !app_assoc.
    unfold set_entries, get_entries, delete_entries; simpl.
    rewrite !app_nil_r.
    split; [reflexivity|]. split; [reflexivity|]. split; [reflexivity|].
    split; [|reflexivity].
    rewrite N2, T1. destruct ops; exact N1.
Qed.

(** From a quiescent connector, calls among which no two of one kind
    share a key and no delete follows a set for its key (a get and a set,
    or a delete and a later set, may share a key) execute nothing while
    they are made, arm one trigger, and end in exactly one pipeline that
    holds one command per call: the writes in call order, then the
    deletes in call order, then the reads in call order. *)
Theorem window_without_collisions (c : connector) (ops : list call) :
  quiescent c = true ->
  collision_free ops ->
  ops <> [] ->
  forallb call_serializable ops = true ->
  exists c1 c2,
    perform_all ops c = (Returned tt, c1)
    /\ executed c1 = executed c
    /\ nextTicks c1 = 1
    /\ end_of_turn c1 = (Returned tt, c2)
    /\ executed c2 =
       executed c
       ++ [map command_of (filter (is_kind Write) ops)
           ++ map command_of (filter (is_kind Delete) ops)
           ++ map command_of (filter (is_kind Read) ops)]
    /\ quiescent c2 = true.
Proof.
  intros Hq Hcf Hne Hser.
  destruct (quiescent_inv _ Hq) as [Hs [Hg [Hd [Ht Hn]]]].
  destruct (perform_all_collision_free (ops := ops) (c := c) Hcf)
    as [c1 [E [S1 [G1 [D1 [N1 X1]]]]]].
  { unfold room. rewrite Hs, Hg, Hd. repeat split; reflexivity. }
  rewrite Hs in S1. rewrite Hg in G1. rewrite Hd in D1.
  simpl in S1, G1, D1.
  assert (N1' : nextTicks c1 = 1).
  { rewrite N1, Ht, Hn. destruct ops; [contradiction | reflexivity]. }
  assert (Hall : all_serializable
                   (sets (with_nextTicks (fun _ => 0) c1)) = true).
  { simpl. rewrite S1. now apply set_entries_serializable. }
  exists c1, (flushed (with_nextTicks (fun _ => 0) c1)).
  split; [exact E|]. split; [exact X1|]. split; [exact N1'|].
  split; [|split].
  - unfold end_of_turn. rewrite N1'. simpl. unfold bind.
    rewrite run_tick_unfold, N1', (flush_returns _ Hall). reflexivity.
  - simpl. rewrite X1. unfold batch_of. simpl. rewrite S1, G1, D1.
    now rewrite writes_of_calls, deletes_of_calls, reads_of_calls.
  - reflexivity.
Qed.

(** ** A set and a delete for one key in one window *)

Lemma delete_app (V : Type) (k : string) (m m' : JsMap.t V) :
  JsMap.delete k (m ++ m') = JsMap.delete k m ++ JsMap.delete k m'.
Proof.
  induction m as [|[k' v'] m IH]; simpl; [reflexivity|].
  destruct (String.eqb k k'); simpl; now rewrite IH.
Qed.

(** With no set and no delete pending for [k]: a set for [k] followed by
    a delete for [k] leaves the delete alone of the two, and the next
    flush holds no write for the set; a delete for [k] followed by a set
    for [k] keeps both, and the next flush puts the write before the
    delete, the reverse of the order of the calls.  Either way the
    pipeline ends with [k] deleted. *)
Theorem set_and_delete_on_one_key (c : connector) (k : string) (v : value)
  (cb1 cb2 : callback) :
  JsMap.has k (sets c) = false -> JsMap.has k (deletes c) = false ->
  all_serializable (sets c) = true -> serializable v = true ->
  (exists c1 c2,
     perform_all [CallSet k v cb1; CallDelete k cb2] c = (Returned tt, c1)
     /\ executed c1 = executed c
     /\ flush c1 = (Returned tt, c2)
     /\ executed c2 =
        executed c
        ++ [map write_of (sets c)
            ++ (map delete_of (deletes c) ++ [DEL k cb2])
            ++ map read_of (gets c)])
  /\ (exists c1 c2,
        perform_all [CallDelete k cb2; CallSet k v cb1] c = (Returned tt, c1)
        /\ executed c1 = executed c
        /\ flush c1 = (Returned tt, c2)
        /\ executed c2 =
           executed c
           ++ [(map write_of (sets c) ++ [write_command k (stringified v) cb1])
               ++ (map delete_of (deletes c) ++ [DEL k cb2])
               ++ map read_of (gets c)]).
Proof.
  intros Hs Hd Hall Hv. split.
  - destruct (perform_no_collision (CallSet k v cb1) c Hs)
      as [c0 [E0 [S0 [G0 [D0 [_ [_ X0]]]]]]].
    destruct (perform_no_collision (CallDelete k cb2) c0)
      as [c1 [E1 [S1 [G1 [D1 [_ [_ X1]]]]]]].
    { simpl. rewrite D0. simpl. now rewrite app_nil_r. }
    simpl in S0, G0, D0, S1, G1, D1. rewrite app_nil_r in *.
    rewrite S0, delete_app, (delete_absent _ _ Hs) in S1. simpl in S1.
    rewrite String.eqb_refl in S1. simpl in S1. rewrite app_nil_r in S1.
    assert (Hall1 : all_serializable (sets c1) = true) by now rewrite S1.
    exists c1, (flushed c1). rewrite perform_all_cons, E0, perform_all_cons, E1.
    split; [reflexivity|]. split; [now rewrite X1, X0|].
    split; [now apply flush_returns|].
    simpl. unfold batch_of. rewrite X1, X0, S1, D1, D0, G1, G0, map_app.
    reflexivity.
  - destruct (perform_no_collision (CallDelete k cb2) c Hd)
      as [c0 [E0 [S0 [G0 [D0 [_ [_ X0]]]]]]].
    simpl in S0, G0, D0. rewrite app_nil_r in *.
    rewrite (delete_absent _ _ Hs) in S0.
    destruct (perform_no_collision (CallSet k v cb1) c0)
      as [c1 [E1 [S1 [G1 [D1 [_ [_ X1]]]]]]].
    { simpl. now rewrite S0. }
    simpl in S1, G1, D1. rewrite app_nil_r in *.
    assert (Hall1 : all_serializable (sets c1) = true).
    { rewrite S1, S0, all_serializable_app, Hall. simpl. now rewrite Hv. }
    exists c1, (flushed c1). rewrite perform_all_cons, E0, perform_all_cons, E1.
    split; [reflexivity|]. split; [now rewrite X1, X0|].
    split; [now apply flush_returns|].
    simpl. unfold batch_of. rewrite X1, X0, S1, S0, D1, D0, G1, G0, !map_app.
    reflexivity.
Qed.

(** ** A value that does not serialize *)



(** ** Any expiration that is not zero *)

(** [options.ttl] is only tested for truthiness: every integer other
    than zero, a negative one included, reaches every write of a flush
    unchanged as the seconds of a [setex]. *)
Theorem nonzero_ttl_is_passed_on (c : connector) (n : Z) :
  ttl = Some n -> n <> 0%Z ->
  all_serializable (sets c) = true ->
  exists c',
    flush c = (Returned tt, c')
    /\ executed c' =
       executed c
       ++ [map (fun e => SETEX (fst e) n (stringified (fst (snd e))) (snd (snd e)))
             (sets c)
           ++ map delete_of (deletes c) ++ map read_of (gets c)].
Proof.
  intros E Hn Hs. exists (flushed c). split; [now apply flush_returns|].
  simpl. unfold batch_of. do 2 f_equal. f_equal.
  apply map_ext. intros e.
  unfold write_of, write_command, ttl_truthy, ttl_seconds. rewrite E.
  destruct (Z.eqb_spec n 0); [contradiction | reflexivity].
Qed.

(** ** What a registration leaves in the table *)

Lemma get_set_same (V : Type) (k : string) (v : V) (m : JsMap.t V) :
  JsMap.get k (JsMap.set k v m) = Some v.
Proof.
  induction m as [|[k' v'] m IH]; simpl.
  - now rewrite String.eqb_refl.
  - destruct (String.eqb k k') eqn:E; simpl.
    + now rewrite String.eqb_refl.
    + now rewrite E.
Qed.

Lemma get_set_other (V : Type) (k k' : string) (v : V) (m : JsMap.t V) :
  k' <> k -> JsMap.get k' (JsMap.set k v m) = JsMap.get k' m.
Proof.
  intros Hne. induction m as [|[k0 v0] m IH]; simpl.
  - destruct (String.eqb_spec k' k); [contradiction | reflexivity].
  - destruct (String.eqb_spec k k0) as [->|Hk]; simpl.
    + destruct (String.eqb_spec k' k0); [contradiction | reflexivity].
    + destruct (String.eqb k' k0); [reflexivity | exact IH].
Qed.

Lemma get_delete_other (V : Type) (k k' : string) (m : JsMap.t V) :
  k' <> k -> JsMap.get k' (JsMap.delete k m) = JsMap.get k' m.
Proof.
  intros Hne. induction m as [|[k0 v0] m IH]; simpl; [reflexivity|].
  destruct (String.eqb_spec k k0) as [->|Hk]; simpl.
  - rewrite IH. destruct (String.eqb_spec k' k0); [contradiction | reflexivity].
  - destruct (String.eqb k' k0); [reflexivity | exact IH].
Qed.

Lemma get_delete_same (V : Type) (k : string) (m : JsMap.t V) :
  JsMap.get k (JsMap.delete k m) = None.
Proof.
  induction m as [|[k0 v0] m IH]; simpl; [reflexivity|].
  destruct (String.eqb k k0) eqn:E; simpl; [exact IH | now rewrite E].
Qed.

Lemma is_pending_scheduled (op : call) (c : connector) :
  is_pending op c -> is_pending op (scheduled c).
Proof. unfold scheduled. destruct (timeoutSet c); destruct op; auto. Qed.

Lemma is_pending_insert (op : call) (c : connector) :
  is_pending op (insert op c).
Proof. destruct op; simpl; apply get_set_same. Qed.

(** Whenever a registration returns, the operation is pending under its
    key with its own payload and callback.  When it forced no flush,
    every entry under another key is as it was in all three mappings, and
    under its own key the other kinds are as they were, except that a
    delete has taken the set for its key away. *)
Theorem registration_is_pending (op : call) (c c' : connector) :
  perform op c = (Returned tt, c') ->
  is_pending op c'
  /\ (same_kind_pending op c = false ->
      (forall k, k <> call_key op ->
         JsMap.get k (sets c') = JsMap.get k (sets c)
         /\ JsMap.get k (gets c') = JsMap.get k (gets c)
         /\ JsMap.get k (deletes c') = JsMap.get k (deletes c))
      /\ match op with
         | CallSet k _ _ =>
             gets c' = gets c /\ deletes c' = deletes c
         | CallGet k _ =>
             sets c' = sets c /\ deletes c' = deletes c
         | CallDelete k _ =>
             JsMap.get k (sets c') = None /\ gets c' = gets c
         end).
Proof.
  rewrite perform_unfold.
  destruct (same_kind_pending op c) eqn:Hp.
  - destruct (flush (precancel op c)) as [[u|x] c1]; [|discriminate].
    intros H. inversion H as [Hc]. split; [|discriminate].
    apply is_pending_scheduled, is_pending_insert.
  - intros H. inversion H as [Hc]. clear H.
    split; [apply is_pending_scheduled, is_pending_insert|].
    intros _.
    assert (Hs : sets (scheduled (insert op (precancel op c)))
                 = sets (insert op (precancel op c)))
      by apply sets_scheduled.
    assert (Hg : gets (scheduled (insert op (precancel op c)))
                 = gets (insert op (precancel op c))).
    { unfold scheduled.
      destruct (timeoutSet (insert op (precancel op c))); reflexivity. }
    assert (Hd : deletes (scheduled (insert op (precancel op c)))
                 = deletes (insert op (precancel op c))).
    { unfold scheduled.
      destruct (timeoutSet (insert op (precancel op c))); reflexivity. }
    rewrite Hs, Hg, Hd.
    destruct op as [k v cb|k cb|k cb]; simpl.
    + split; [|split; reflexivity].
      intros k' Hk'. rewrite (get_set_other _ _ Hk'). auto.
    + split; [|split; reflexivity].
      intros k' Hk'. rewrite (get_set_other _ _ Hk'). auto.
    + split; [|split; [apply get_delete_same | reflexivity]].
      intros k' Hk'.
      rewrite (get_set_other _ _ Hk'), (get_delete_other _ Hk'). auto.
Qed.

(** ** How many pipelines *)

Lemma step_executes_at_most_one (e : event) (c : connector) :
  exists new,
    executed (snd (step e c)) = executed c ++ new
    /\ List.length new <= 1
    /\ (new <> [] ->
        match e with
        | Register op => same_kind_pending op c = true
        | Tick => 1 <= nextTicks c
        end).
Proof.
  destruct e as [op|]; simpl.
  - rewrite perform_unfold. destruct (same_kind_pending op c) eqn:Hp.
    + destruct (all_serializable (sets (precancel op c))) eqn:Hs.
      * rewrite (flush_returns _ Hs). simpl.
        exists [batch_of (precancel op c)].
        split; [|split; [simpl; lia | reflexivity]].
        unfold scheduled. destruct op; reflexivity.
      * destruct (flush_throws _ Hs) as [x ->]. simpl.
        exists []. rewrite app_nil_r.
        split; [destruct op; reflexivity|]. split; [simpl; lia|].
        intros F. now elim F.
    + simpl. exists []. rewrite app_nil_r. split; [|split; [simpl; lia|]].
      * unfold scheduled.
        destruct (timeoutSet (insert op (precancel op c)));
          destruct op; reflexivity.
      * intros F. now elim F.
  - rewrite run_tick_unfold. destruct (nextTicks c) as [|n].
    + exists []. simpl. rewrite app_nil_r.
      split; [reflexivity|]. split; [lia|]. intros F. now elim F.
    + destruct (all_serializable (sets (with_nextTicks (fun _ => n) c))) eqn:Hs.
      * rewrite (flush_returns _ Hs). simpl.
        exists [batch_of (with_nextTicks (fun _ => n) c)].
        split; [reflexivity|]. split; [simpl; lia|]. intros _. lia.
      * destruct (flush_throws _ Hs) as [x ->]. simpl.
        exists []. rewrite app_nil_r. split; [reflexivity|].
        split; [simpl; lia|]. intros _. lia.
Qed.

(** The list of executed pipelines only grows, by at most one pipeline
    per event: a registration executes one only when an operation of its
    kind was pending for its key, a tick only when a trigger was queued.
    After any run there are at most as many pipelines as events. *)
Theorem at_most_one_pipeline_per_event (es : list event) (c : connector) :
  (forall e,
     exists new,
       executed (snd (step e c)) = executed c ++ new
       /\ List.length new <= 1
       /\ (new <> [] ->
           match e with
           | Register op => same_kind_pending op c = true
           | Tick => 1 <= nextTicks c
           end))
  /\ exists new,
      executed (snd (run_events es c)) = executed c ++ new
      /\ List.length new <= List.length es.
Proof.
  split; [intros e; apply step_executes_at_most_one|].
  revert c. induction es as [|e es IH]; intros c.
  - exists []. simpl. rewrite app_nil_r. split; [reflexivity | lia].
  - destruct (step_executes_at_most_one e c) as [n1 [X1 [L1 _]]].
    rewrite run_events_cons.
    destruct (step e c) as [[u|x] c1]; simpl in X1 |- *.
    + destruct (IH c1) as [n2 [X2 L2]].
      exists (n1 ++ n2). rewrite X2, X1, app_assoc.
      split; [reflexivity|]. rewrite length_app. lia.
    + exists n1. split; [exact X1 | lia].
Qed.

End Connector.

Arguments CallGet {value} key cb.
Arguments CallDelete {value} key cb.
Arguments Returned {error A} a.
Arguments Threw {error A} e.
Arguments fresh {value}.
Arguments ArgNull {value error}.
Arguments ArgError {value error} e.
Arguments ArgValue {value error} v.
Arguments ArgReply {value error} r.
Arguments Invoke {value error} cb args.
Arguments Tick {value}.

(** * close, lines 42-46

    [close] works on the redis client only: it drops every listener of
    the client's 'end' event, registers one one-shot listener that makes
    the connector emit 'close', and asks the client to quit.  The client
    is a Node [EventEmitter]: [emit] calls the listeners of the event in
    the order they were added, and a listener added with [once] is
    removed when it is called. *)
Module Lifecycle.

(** What an 'end' listener does: make the connector emit 'close', or
    something that was registered by other code. *)
Inductive handler : Type :=
| EmitClose
| Foreign (id : nat).

Record listener : Type := Listener {
  handle : handler;
  once : bool
}.

(** The client: the listeners of its 'end' event, oldest first, and how
    often [quit] was called. *)
Record client : Type := Client {
  end_listeners : list listener;
  quits : nat
}.

Definition removeAllListeners_end (cl : client) : client :=
  {| end_listeners := []; quits := quits cl |}.

Definition on_end (h : handler) (cl : client) : client :=
  {| end_listeners := end_listeners cl ++ [{| handle := h; once := false |}];
     quits := quits cl |}.

Definition once_end (h : handler) (cl : client) : client :=
  {| end_listeners := end_listeners cl ++ [{| handle := h; once := true |}];
     quits := quits cl |}.

Definition quit (cl : client) : client :=
  {| end_listeners := end_listeners cl; quits := S (quits cl) |}.

Definition close (cl : client) : client :=
  quit (once_end EmitClose (removeAllListeners_end cl)).

(** The client emits 'end': the handlers that run, in order, and the
    client without its one-shot listeners. *)
Definition emit_end (cl : client) : list handler * client :=
  (map handle (end_listeners cl),
   {| end_listeners := filter (fun l => negb (once l)) (end_listeners cl);
      quits := quits cl |}).

(** The connector's 'close' events among the handlers that ran. *)
Definition closes (hs : list handler) : nat :=
  List.length (filter (fun h => match h with
                                | EmitClose => true
                                | Foreign _ => false
                                end) hs).

Lemma close_listeners (cl : client) :
  end_listeners (close cl) = [{| handle := EmitClose; once := true |}].
Proof. reflexivity. Qed.

Lemma iter_close_listeners (n : nat) (cl : client) :
  end_listeners (Nat.iter (S n) close cl)
  = [{| handle := EmitClose; once := true |}]
  /\ quits (Nat.iter (S n) close cl) = S n + quits cl.
Proof.
  induction n as [|n [IH1 IH2]]; [split; reflexivity|].
  change (Nat.iter (S (S n)) close cl) with (close (Nat.iter (S n) close cl)).
  split; [reflexivity|].
  change (quits (close (Nat.iter (S n) close cl)))
    with (S (quits (Nat.iter (S n) close cl))).
  rewrite IH2. reflexivity.
Qed.

(** Whatever listened to the client's 'end' before, and however many
    times [close] is called: when the client ends, the connector emits
    'close' exactly once and no earlier listener runs; if the client
    emitted 'end' again nothing would run; and [quit] was called once per
    call of [close]. *)
Theorem close_emits_close_once (n : nat) (cl : client) :
  let closed := Nat.iter (S n) close cl in
  fst (emit_end closed) = [EmitClose]
  /\ closes (fst (emit_end closed)) = 1
  /\ fst (emit_end (snd (emit_end closed))) = []
  /\ quits closed = S n + quits cl.
Proof.
  cbv zeta. destruct (iter_close_listeners n cl) as [H1 H2].
  unfold emit_end. rewrite H1. simpl. repeat split. exact H2.
Qed.

(** Without [close], a listener that was added with [on] keeps running
    at every 'end'; [close] is what silences it. *)
Lemma close_silences_earlier_listeners (id : nat) (cl : client) :
  In (Foreign id) (fst (emit_end (on_end (Foreign id) cl)))
  /\ In (Foreign id)
       (fst (emit_end (snd (emit_end (on_end (Foreign id) cl)))))
  /\ ~ In (Foreign id) (fst (emit_end (close (on_end (Foreign id) cl)))).
Proof.
  split; [|split].
  - simpl. rewrite map_app, in_app_iff. right. now left.
  - simpl. rewrite filter_app, map_app, in_app_iff. right. now left.
  - simpl. intros [H|[]]. discriminate.
Qed.

End Lifecycle.

(** * The connector on concrete inputs

    A codec over three payloads: the numbers 1 and 2, and an object that
    contains itself, on which [JSON.stringify] throws a [TypeError]. *)
Module Sample.

Inductive sample_value : Type := One | Two | Cyclic.

Inductive sample_error : Type := TypeError | SyntaxError | StoreError.

Definition stringify (v : sample_value) : sample_error + string :=
  match v with
  | One => inr "1"
  | Two => inr "2"
  | Cyclic => inl TypeError
  end.

Definition parse (s : string) : sample_error + sample_value :=
  if String.eqb s "1" then inr One
  else if String.eqb s "2" then inr Two
  else inl SyntaxError.

Definition start : connector sample_value := fresh.

(** The connector after the calls [ops], made in one turn on a fresh
    connector whose tick queue has not run yet. *)
Definition after (ttl : option Z) (ops : list (call sample_value))
  : connector sample_value :=
  snd (perform_all stringify ttl ops start).

(** A store that holds "1" under every key and reports no error. *)
Definition store_of_ones (cmd : command) : option sample_error * reply :=
  match cmd with
  | GET _ _ => (None, RText "1")
  | _ => (None, RText "OK")
  end.

(** A get, a delete and a set, registered in that order. *)
Definition mixed : list (call sample_value) :=
  [CallGet "a" 2; CallDelete "b" 3; CallSet "a" One 1].

(** The connector with a set for "a" and a get for "b" pending. *)
Definition crowded : connector sample_value :=
  after None [CallSet "a" One 1; CallGet "b" 2].

(** A get, a delete and a set on three keys. *)
Definition spread : list (call sample_value) :=
  [CallGet "c" 2; CallDelete "b" 3; CallSet "a" One 1].

(** Two turns; the second one holds a collision on "a". *)
Definition two_turns : list (list (call sample_value)) :=
  [[CallSet "a" One 1; CallGet "a" 2];
   [CallSet "a" Two 3; CallSet "a" One 4; CallDelete "b" 5]].

(** A day of events: a collision on "a", a tick in between, a get and a
    delete. *)
Definition busy : list (event sample_value) :=
  [Register (CallSet "a" One 1); Register (CallSet "a" Two 2); Tick;
   Register (CallGet "b" 3); Register (CallDelete "c" 4)].

(** A set that a delete cancels before any tick, then a get. *)
Definition regretted : list (event sample_value) :=
  [Register (CallSet "a" One 1); Register (CallDelete "a" 2); Tick;
   Register (CallGet "a" 3)].

(** Three kinds on the key "a", the delete before the set, and a get on
    "b". *)
Definition overlapping : list (call sample_value) :=
  [CallDelete "a" 1; CallSet "a" One 2; CallGet "a" 3; CallGet "b" 4].


(** ** Runs *)

Example mixed_pending :
  after None mixed =
  {| sets := [("a", (One, 1))]; gets := [("a", 2)]; deletes := [("b", 3)];
     timeoutSet := true; nextTicks := 1; executed := [] |}.
Proof. reflexivity. Qed.

(** The scenario of the specification: two writes and a read in one
    pipeline, and the read's callback receives [(null, 1)]. *)
Example scenario_one_batch :
  let final := snd (turn stringify None
                      [CallSet "a" One 1; CallSet "b" Two 2; CallGet "a" 3]
                      start) in
  executed final = [[SET "a" "1" 1; SET "b" "2" 2; GET "a" 3]]
  /\ deliver_all parse store_of_ones (executed final)
     = [Invoke 1 [ArgNull; ArgReply (RText "OK")];
        Invoke 2 [ArgNull; ArgReply (RText "OK")];
        Invoke 3 [ArgNull; ArgValue One]].
Proof. split; reflexivity. Qed.

(** Completion of a read, case by case: a missing key with and without
    a store error, an unparsable text, a text that parses while the store
    also reports an error, and a result left undefined. *)
Example read_completions :
  complete parse (GET "missing" 7) (None, RNull)
  = [Invoke 7 [ArgNull; ArgNull]]
  /\ complete parse (GET "missing" 7) (Some StoreError, RNull)
     = [Invoke 7 [ArgError StoreError; ArgNull]]
  /\ complete parse (GET "a" 7) (None, RText "{")
     = [Invoke 7 [ArgError SyntaxError]]
  /\ complete parse (GET "a" 7) (Some StoreError, RText "1")
     = [Invoke 7 [ArgNull; ArgValue One]]
  /\ complete parse (GET "a" 7) (Some StoreError, RUndefined)
     = [Invoke 7 [ArgError SyntaxError]].
Proof. repeat split; reflexivity. Qed.

(** [flush_leaves_nothing_pending] on the table left by [mixed]. *)
Lemma flush_leaves_nothing_pending_witness :
  flush stringify None (after None mixed)
  = (Returned tt, flushed stringify None (after None mixed))
  /\ sets (flushed stringify None (after None mixed)) = []
  /\ executed (flushed stringify None (after None mixed))
     = [[SET "a" "1" 1; DEL "b" 3; GET "a" 2]]
  /\ flush stringify None (flushed stringify None (after None mixed))
     = (Returned tt,
        with_exec [] (flushed stringify None (after None mixed))).
Proof.
  split; [reflexivity|].
  destruct (@flush_leaves_nothing_pending _ _ stringify None
              (after None mixed) _ eq_refl)
    as [S [_ [_ [_ [_ [X F]]]]]].
  split; [exact S|]. split; [exact X | exact F].
Defined.

(** [flush_groups_by_kind] on the table left by [mixed]: the get was
    registered first and is appended last. *)
Lemma flush_groups_by_kind_witness :
  all_serializable stringify (sets (after None mixed)) = true
  /\ exists c',
      flush stringify None (after None mixed) = (Returned tt, c')
      /\ executed c' = [[SET "a" "1" 1; DEL "b" 3; GET "a" 2]]
      /\ map kind_of [SET "a" "1" 1; DEL "b" 3; GET "a" 2]
         = [Write; Delete; Read].
Proof.
  split; [reflexivity|].
  destruct (@flush_groups_by_kind _ _ stringify None (after None mixed) eq_refl)
    as [c' [E [X K]]].
  exists c'. split; [exact E|]. split; [exact X | exact K].
Defined.

(** [flush_expiration] with [options.ttl] set to 60. *)
Lemma flush_expiration_witness :
  all_serializable stringify (sets (after (Some 60%Z) mixed)) = true
  /\ exists c',
      flush stringify (Some 60%Z) (after (Some 60%Z) mixed) = (Returned tt, c')
      /\ executed c' = [[SETEX "a" 60 "1" 1; DEL "b" 3; GET "a" 2]].
Proof.
  split; [reflexivity|].
  destruct (@flush_expiration _ _ stringify (Some 60%Z)
              (after (Some 60%Z) mixed) eq_refl)
    as [c' [writes [E [X [P _]]]]].
  exists c'. split; [exact E|].
  rewrite X, (P 60%Z eq_refl eq_refl). reflexivity.
Defined.

(** [set_and_get_coexist] on a fresh connector, the get registered
    first: one trigger is queued and the turn ends with one pipeline. *)
Lemma set_and_get_coexist_witness :
  JsMap.has "a" (sets start) = false
  /\ JsMap.has "a" (gets start) = false
  /\ (timeoutSet start = true -> 1 <= nextTicks start)
  /\ exists c1 c2,
      perform_all stringify None [CallGet "a" 2; CallSet "a" One 1] start
      = (Returned tt, c1)
      /\ executed c1 = []
      /\ timeoutSet c1 = true
      /\ nextTicks c1 = 1
      /\ end_of_turn stringify None c1 = (Returned tt, c2)
      /\ executed c2 = [[SET "a" "1" 1; GET "a" 2]]
      /\ quiescent c2 = true.
Proof.
  assert (Harm : timeoutSet start = true -> 1 <= nextTicks start).
  { intros H. discriminate H. }
  split; [reflexivity|]. split; [reflexivity|]. split; [exact Harm|].
  destruct (@set_and_get_coexist _ _ stringify None start "a" One 1 2
              eq_refl eq_refl eq_refl eq_refl Harm) as [H _].
  destruct (H _ (or_intror eq_refl))
    as [c1 [c2 [E [X [_ [_ [T [N [_ [_ [_ [_ [_ [_ [_ [_ Q]]]]]]]]]]]]]]]].
  destruct (Q eq_refl) as [E2 [X2 Q2]].
  exists c1, c2. repeat split; assumption.
Defined.

(** [conflict_forces_split]: a second set for "a" while a set for "a"
    and a get for "b" are pending. *)
Lemma conflict_forces_split_witness :
  same_kind_pending (CallSet "a" Two 3) crowded = true
  /\ exists c1 c2,
      set stringify None "a" Two 3 crowded = (Returned tt, c1)
      /\ executed c1 = [[SET "a" "1" 1; GET "b" 2]]
      /\ sets c1 = [("a", (Two, 3))] /\ gets c1 = [] /\ deletes c1 = []
      /\ run_tick stringify None c1 = (Returned tt, c2)
      /\ executed c2 = [[SET "a" "1" 1; GET "b" 2]; [SET "a" "2" 3]].
Proof.
  split; [reflexivity|].
  destruct (@conflict_forces_split _ _ stringify None crowded
              (CallSet "a" Two 3) eq_refl eq_refl eq_refl eq_refl)
    as [c1 [c2 [E [X [_ [[S [G D]] [_ [R [X2 _]]]]]]]]].
  exists c1, c2. repeat split; assumption.
Defined.

(** C2, counterexample: with a delete and a set pending for "a", a second
    delete for "a" executes a pipeline that lacks the pending set, which
    reaches no pipeline at all; and the turn ends with three pipelines
    executed, the last one empty. *)
Lemma conflict_split_counterexample :
  let before := after None [CallDelete "a" 1; CallSet "a" One 2] in
  let final :=
    snd (turn stringify None
           [CallDelete "a" 1; CallSet "a" One 2; CallDelete "a" 3] start) in
  JsMap.has "a" (deletes before) = true
  /\ JsMap.get "a" (sets before) = Some (One, 2)
  /\ executed (snd (delete stringify None "a" 3 before)) = [[DEL "a" 1]]
  /\ batch_of stringify None before <> [DEL "a" 1]
  /\ executed final = [[DEL "a" 1]; [DEL "a" 3]; []]
  /\ ~ (exists p, In p (executed final) /\ In (SET "a" "1" 2) p).
Proof.
  cbv zeta.
  assert (E : executed
                (snd (turn stringify None
                        [CallDelete "a" 1; CallSet "a" One 2; CallDelete "a" 3]
                        start))
              = [[DEL "a" 1]; [DEL "a" 3]; []]) by reflexivity.
  rewrite E. clear E.
  split; [reflexivity|]. split; [reflexivity|]. split; [reflexivity|].
  split; [discriminate|]. split; [reflexivity|].
  intros [p [Hp Hin]].
  destruct Hp as [<-|[<-|[<-|[]]]]; simpl in Hin.
  - destruct Hin as [Hin|Hin]; [discriminate Hin | exact Hin].
  - destruct Hin as [Hin|Hin]; [discriminate Hin | exact Hin].
  - exact Hin.
Qed.

(** [distinct_keys_coalesce] on three calls with three keys. *)
Lemma distinct_keys_coalesce_witness :
  quiescent start = true
  /\ NoDup (map (@call_key sample_value) spread)
  /\ exists c1 c2,
      perform_all stringify None spread start = (Returned tt, c1)
      /\ nextTicks c1 = 1
      /\ end_of_turn stringify None c1 = (Returned tt, c2)
      /\ executed c2 = [[SET "a" "1" 1; DEL "b" 3; GET "c" 2]].
Proof.
  assert (Hnd : NoDup (map (@call_key sample_value) spread)).
  { repeat constructor; simpl; intuition discriminate. }
  split; [reflexivity|]. split; [exact Hnd|].
  destruct (@distinct_keys_coalesce _ _ stringify None start spread
              eq_refl Hnd ltac:(discriminate) eq_refl)
    as [_ [_ [_ [c1 [c2 [batch [E [N [_ [T [X [_ [B _]]]]]]]]]]]]].
  exists c1, c2. split; [exact E|]. split; [exact N|]. split; [exact T|].
  rewrite X, B. reflexivity.
Defined.

(** C5, counterexample: a second set for "a" in the same turn flushes,
    which clears [timeoutSet] while the first trigger is still queued, and
    then queues a second trigger; the turn ends with three pipelines
    executed, the last one empty. *)
Lemma second_trigger_counterexample :
  let c := after None [CallSet "a" One 1; CallSet "a" Two 2] in
  nextTicks c = 2
  /\ ~ nextTicks c <= 1
  /\ executed
       (snd (turn stringify None [CallSet "a" One 1; CallSet "a" Two 2] start))
     = [[SET "a" "1" 1]; [SET "a" "2" 2]; []].
Proof.
  cbv zeta.
  assert (E : nextTicks (after None [CallSet "a" One 1; CallSet "a" Two 2]) = 2)
    by reflexivity.
  rewrite E. split; [reflexivity|]. split; [lia | reflexivity].
Qed.

(** C1, at the failing input: a set for "a" followed in the same turn by a
    delete for "a".  The turn returns and leaves the connector quiescent
    with one pipeline executed, which holds the delete only; however the
    store answers, the set's callback 1 is never invoked and the delete's
    callback 2 is invoked once. *)
Lemma cancelled_set_callback_is_lost :
  let run := turn stringify None [CallSet "a" One 1; CallDelete "a" 2] start in
  fst run = Returned tt
  /\ quiescent (snd run) = true
  /\ executed (snd run) = [[DEL "a" 2]]
  /\ forall answer,
      times_invoked 1 (deliver_all parse answer (executed (snd run))) = 0
      /\ times_invoked 2 (deliver_all parse answer (executed (snd run))) = 1.
Proof.
  cbv zeta. repeat split; reflexivity.
Qed.

(** C9, at the failing input: with a cyclic value pending under "a", a
    second [set] for "a" forces a flush, [JSON.stringify] throws inside
    it and the [TypeError] leaves [set]; the same happens to a [get] and
    to a [delete] that force a flush. *)
Lemma registration_throws :
  let c := after None [CallSet "a" Cyclic 1; CallGet "b" 2; CallDelete "c" 3] in
  set stringify None "a" One 4 c = (Threw TypeError, with_timeoutSet false c)
  /\ get stringify None "b" 5 c = (Threw TypeError, with_timeoutSet false c)
  /\ delete stringify None "c" 6 c = (Threw TypeError, with_timeoutSet false c)
  /\ executed c = [].
Proof.
  cbv zeta. repeat split; reflexivity.
Qed.

(** [exactly_once_without_cancellation] on [two_turns]: five
    registrations, five invocations, one each. *)
Lemma exactly_once_without_cancellation_witness :
  cancel_free_turns stringify None two_turns start = true
  /\ exists c',
      run_turns stringify None two_turns start = (Returned tt, c')
      /\ forall cb,
          In cb [1; 2; 3; 4; 5] ->
          times_invoked cb (deliver_all parse store_of_ones (executed c')) = 1.
Proof.
  split; [reflexivity|].
  destruct (@exactly_once_without_cancellation _ _ stringify parse None
              two_turns store_of_ones eq_refl eq_refl) as [c' [E [_ H]]].
  exists c'. split; [exact E|].
  intros cb Hin. rewrite H.
  repeat (destruct Hin as [<-|Hin]; [reflexivity|]). destruct Hin.
Defined.


(** [nothing_stranded] on [busy]. *)
Lemma nothing_stranded_witness :
  forallb (call_serializable stringify) (registered busy) = true
  /\ exists c' c'',
      run_events stringify None busy start = (Returned tt, c')
      /\ pending_callbacks c' = [4; 3]
      /\ timeoutSet c' = true /\ 1 <= nextTicks c'
      /\ end_of_turn stringify None c' = (Returned tt, c'')
      /\ quiescent c'' = true.
Proof.
  split; [reflexivity|].
  destruct (@nothing_stranded _ _ stringify None busy eq_refl)
    as [c' [E [A [c'' [E2 Q]]]]].
  assert (Hc : c' = snd (run_events stringify None busy start))
    by (unfold start; now rewrite E).
  assert (Hp : pending_callbacks c' = [4; 3]) by (rewrite Hc; reflexivity).
  destruct A as [A1 A2]; [rewrite Hp; discriminate|].
  exists c', c''. repeat split; assumption.
Defined.

(** [callbacks_accounted] on [regretted]: callback 1 was cancelled and
    is never invoked, callbacks 2 and 3 are invoked once. *)
Lemma callbacks_accounted_witness :
  forallb (call_serializable stringify) (registered regretted) = true
  /\ cancelled stringify None regretted start = [1]
  /\ exists c' c'',
      run_events stringify None regretted start = (Returned tt, c')
      /\ end_of_turn stringify None c' = (Returned tt, c'')
      /\ times_invoked 1 (deliver_all parse store_of_ones (executed c'')) = 0
      /\ times_invoked 2 (deliver_all parse store_of_ones (executed c'')) = 1
      /\ times_invoked 3 (deliver_all parse store_of_ones (executed c'')) = 1.
Proof.
  split; [reflexivity|]. split; [reflexivity|].
  destruct (@callbacks_accounted _ _ stringify parse None regretted
              store_of_ones eq_refl) as [c' [c'' [E [E2 H]]]].
  exists c', c''. split; [exact E|]. split; [exact E2|].
  pose proof (H 1) as H1. pose proof (H 2) as H2. pose proof (H 3) as H3.
  change (cancelled stringify None regretted start) with [1] in H1, H2, H3.
  change (map (@call_callback sample_value) (registered regretted))
    with [1; 2; 3] in H1, H2, H3.
  simpl in H1, H2, H3. repeat split; lia.
Defined.

(** [window_without_collisions] on [overlapping]. *)
Lemma window_without_collisions_witness :
  collision_free overlapping
  /\ exists c1 c2,
      perform_all stringify None overlapping start = (Returned tt, c1)
      /\ nextTicks c1 = 1
      /\ end_of_turn stringify None c1 = (Returned tt, c2)
      /\ executed c2 = [[SET "a" "1" 2; DEL "a" 1; GET "a" 3; GET "b" 4]].
Proof.
  assert (H : collision_free overlapping).
  { unfold collision_free; simpl.
    repeat split; repeat constructor; simpl; intuition discriminate. }
  split; [exact H|].
  destruct (@window_without_collisions _ _ stringify None start overlapping
              eq_refl H ltac:(discriminate) eq_refl)
    as [c1 [c2 [E [_ [N [T [X _]]]]]]].
  exists c1, c2. repeat split; assumption.
Defined.

(** [set_and_delete_on_one_key] on a fresh connector. *)
Lemma set_and_delete_on_one_key_witness :
  (exists c1 c2,
     perform_all stringify None [CallSet "a" One 1; CallDelete "a" 2] start
     = (Returned tt, c1)
     /\ flush stringify None c1 = (Returned tt, c2)
     /\ executed c2 = [[DEL "a" 2]])
  /\ (exists c1 c2,
        perform_all stringify None [CallDelete "a" 2; CallSet "a" One 1] start
        = (Returned tt, c1)
        /\ flush stringify None c1 = (Returned tt, c2)
        /\ executed c2 = [[SET "a" "1" 1; DEL "a" 2]]).
Proof.
  destruct (@set_and_delete_on_one_key _ _ stringify None start "a" One 1 2
              eq_refl eq_refl eq_refl eq_refl)
    as [[c1 [c2 [E [_ [F X]]]]] [d1 [d2 [E' [_ [F' X']]]]]].
  split.
  - exists c1, c2. repeat split; assumption.
  - exists d1, d2. repeat split; assumption.
Defined.


(** [nonzero_ttl_is_passed_on] with a negative [options.ttl]. *)
Lemma nonzero_ttl_is_passed_on_witness :
  exists c',
    flush stringify (Some (-5)%Z) (after (Some (-5)%Z) [CallSet "a" One 1])
    = (Returned tt, c')
    /\ executed c' = [[SETEX "a" (-5) "1" 1]].
Proof.
  destruct (@nonzero_ttl_is_passed_on _ _ stringify (Some (-5)%Z)
              (after (Some (-5)%Z) [CallSet "a" One 1]) (-5)%Z
              eq_refl ltac:(discriminate) eq_refl) as [c' [E X]].
  exists c'. split; [exact E | exact X].
Defined.

(** A run that a throwing flush ends: nothing was invoked twice, and
    nothing at all. *)
Example thrown_run :
  let run := run_events stringify None
               [Register (CallSet "a" Cyclic 1); Register (CallGet "b" 2);
                Tick; Register (CallGet "c" 3)] start in
  fst run = Threw TypeError
  /\ executed (snd run) = []
  /\ nextTicks (snd run) = 0.
Proof. cbv zeta. repeat split; reflexivity. Qed.

(** [registration_is_pending]: a delete for "a" while a set for "a" and
    a get for "b" are pending. *)
Lemma registration_is_pending_witness :
  let c' := snd (delete stringify None "a" 9 crowded) in
  delete stringify None "a" 9 crowded = (Returned tt, c')
  /\ JsMap.get "a" (deletes c') = Some 9
  /\ JsMap.get "a" (sets c') = None
  /\ JsMap.get "b" (gets c') = Some 2.
Proof.
  cbv zeta. split; [reflexivity|].
  destruct (@registration_is_pending _ _ stringify None (CallDelete "a" 9)
              crowded (snd (delete stringify None "a" 9 crowded)) eq_refl)
    as [P F].
  destruct (F eq_refl) as [Hother [Hs Hg]].
  split; [exact P|]. split; [exact Hs|].
  destruct (Hother "b") as [_ [G _]]; [discriminate|].
  rewrite G. reflexivity.
Defined.

End Sample.
